(** * F4Jumble: a shallow embedding of [f4jumble.go] and its properties

    The Go package [f4jumble] is a 4-round unkeyed Feistel network over a
    (left, right) split of the message.  Its round functions call the
    BLAKE2b digest of [github.com/gtank/blake2/blake2b].

    Modelling choices.
    - A [[]byte] is a [list Z]; the conversion [uint8(.)] is written out as
      reduction modulo 256, [^] is [Z.lxor].
    - Go's [int] is a [Z], of 64 bits.  Every [int] of the program is a
      slice length, a counter that stays below one, or a round index, and
      the one operation that can leave the range is the sum
      [num + den - 1] of [ceilDiv], whose wrap-around beyond [MaxInt] is
      written out.  On the lengths the two exported functions accept no
      operation leaves even the range of a 32-bit [int] (lemma
      [int_arithmetic_in_range]).  [/] truncates towards zero and is
      [Z.quot].
    - A Go function returning [(value, error)] returns an [outcome]; a
      run-time panic (index or slice bound out of range) is the third
      constructor.
    - Calls to the digest constructor and to [xor] are recorded, in program
      order, in a trace carried by the monad [go], so that statements about
      what a run does before it fails, and about the operands each call
      receives, are statements about that trace. *)

From Stdlib Require Import ZArith Lia String Ascii.
From stdpp Require Import base tactics option list.

Local Open Scope Z_scope.

Module f4jumble.

(** ** Values *)

Abbreviation byte := Z (only parsing).

Definition uint8 (z : Z) : byte := z mod 256.

Definition len {A} (s : list A) : Z := Z.of_nat (length s).

Inductive error :=
| ErrInvalidLength            (* errors.New("invalid message length") *)
| ErrDigest (msg : string).   (* an error returned by blake2b.NewDigest *)

Inductive outcome (A : Type) :=
| Ok (a : A)
| Err (e : error)
| Panic.
Arguments Ok {A} a.
Arguments Err {A} e.
Arguments Panic {A}.

(** ** The trace monad *)

Inductive event :=
| EvNewDigest (personalization : list byte) (outputBytes : Z)
| EvXor (x y : list byte).

Definition go (A : Type) : Type := list event * outcome A.

Definition ret {A} (a : A) : go A := ([], Ok a).
Definition fail {A} (e : error) : go A := ([], Err e).
Definition panic {A} : go A := ([], Panic).
Definition emit (ev : event) : go unit := ([ev], Ok tt).
Definition lift {A} (o : outcome A) : go A := ([], o).

Definition bind {A B} (m : go A) (f : A -> go B) : go B :=
  match m with
  | (t, Ok a) => let '(t', r) := f a in (t ++ t', r)
  | (t, Err e) => (t, Err e)
  | (t, Panic) => (t, Panic)
  end.

Notation "x <- m ;; k" := (bind m (fun x => k))
  (at level 100, m at next level, right associativity).
Notation "m ;;; k" := (bind m (fun _ => k))
  (at level 100, right associativity).

Definition trace {A} (m : go A) : list event := fst m.
Definition result {A} (m : go A) : outcome A := snd m.

(** The calls recorded in a trace, by kind. *)
Definition xor_calls (t : list event) : list (list byte * list byte) :=
  omap (fun ev => match ev with EvXor x y => Some (x, y) | _ => None end) t.

Definition digest_calls (t : list event) : list (list byte * Z) :=
  omap (fun ev => match ev with
                  | EvNewDigest p n => Some (p, n)
                  | _ => None
                  end) t.

(** ** Slices *)

(** [s[:n]].  Go checks [0 <= n <= cap(s)]; the model checks against
    [len(s)], the two agree at every slice expression of this program
    whenever the digest returns as many bytes as it was asked for. *)
Definition slice_to {A} (s : list A) (n : Z) : go (list A) :=
  if (0 <=? n) && (n <=? len s) then ret (take (Z.to_nat n) s) else panic.

(** [s[n:]], in range when [0 <= n <= len(s)]. *)
Definition slice_from {A} (s : list A) (n : Z) : go (list A) :=
  if (0 <=? n) && (n <=? len s) then ret (drop (Z.to_nat n) s) else panic.

(** ** Constants and helpers of [f4jumble.go] *)

Definition minLenM : Z := 48.
Definition maxLenM : Z := 4194368.
Definition lenH : Z := 64.

(** [math.MaxInt] and [math.MinInt] of a 64-bit [int]. *)
Definition MaxInt : Z := 2 ^ 63 - 1.
Definition MinInt : Z := - 2 ^ 63.

(** The [int] that a sum of exact value [z] evaluates to: beyond [MaxInt]
    it wraps around to [z - 2^64].  This is two's complement reduction
    for every [z] from [MinInt] to [MaxInt + 2^64] (lemma
    [wrap_int_twos_complement]), hence for [num + den - 1] with [num] an
    [int] and [den >= 1]; [ceilDiv] is only called with [den = lenH]. *)
Definition wrap_int (z : Z) : Z := if z >? MaxInt then z - 2 ^ 64 else z.

Definition ceilDiv (num den : Z) : Z := wrap_int (num + den - 1) ÷ den.

Definition hPers (i : Z) : list byte :=
  [85; 65; 95; 70; 52; 74; 117; 109; 98; 108; 101; 95; 72; uint8 i; 0; 0].

Definition gPers (i j : Z) : list byte :=
  [85; 65; 95; 70; 52; 74; 117; 109; 98; 108; 101; 95; 71; uint8 i;
   uint8 (Z.land j 255); uint8 (Z.shiftr j 8)].

Definition min (a b : Z) : Z := if a <? b then a else b.

(** ** [xor] *)

(** The body of [for i := range x], over the indices still to visit.
    [x[i]] and [y[i]] are bounds-checked reads, [result[i] = ...] a
    bounds-checked write. *)
Fixpoint xor_loop (x y : list byte) (idx : list nat) (result : list byte)
  : outcome (list byte) :=
  match idx with
  | [] => Ok result
  | i :: idx' =>
      if Z.of_nat i <=? len y then
        match x !! i, y !! i with
        | Some xi, Some yi =>
            if decide (i < length result)%nat
            then xor_loop x y idx' (<[i := Z.lxor xi yi]> result)
            else Panic
        | _, _ => Panic
        end
      else xor_loop x y idx' result
  end.

Definition xor_body (x y : list byte) : outcome (list byte) :=
  xor_loop x y (seq 0 (length x)) (replicate (length x) 0).

Definition xor (x y : list byte) : go (list byte) :=
  emit (EvXor x y) ;;; lift (xor_body x y).

(** ** The round functions, over the digest interface *)

Section Rounds.

(** [blake2b.Digest] and the three operations the program uses:
    [NewDigest(key, salt, personalization, outputBytes)], [Write] and
    [Sum(b)], which appends the digest to [b]. *)
Variable Digest : Type.
Variable NewDigest :
  list byte -> list byte -> list byte -> Z -> outcome Digest.
Variable Write : Digest -> list byte -> Digest.
Variable Sum : Digest -> list byte -> list byte.

Definition newDigest (pers : list byte) (outputBytes : Z) : go Digest :=
  emit (EvNewDigest pers outputBytes) ;;;
  lift (NewDigest [] [] pers outputBytes).

(** The closure [inner] of [gRound]. *)
Definition inner (i : Z) (u : list byte) (j : Z) : go (list byte) :=
  g <- newDigest (gPers i j) lenH ;;
  ret (Sum (Write g u) []).

(** [for j := 0; j < ceilDiv(lenR, lenH); j++], with [k] iterations
    left to run. *)
Fixpoint gRound_loop (i : Z) (u : list byte) (k : nat) (j : Z)
    (result : list byte) : go (list byte) :=
  match k with
  | O => ret result
  | S k' =>
      hash <- inner i u j ;;
      gRound_loop i u k' (j + 1) (result ++ hash)
  end.

Definition gRound (i : Z) (u : list byte) (lenR : Z) : go (list byte) :=
  result <- gRound_loop i u (Z.to_nat (ceilDiv lenR lenH)) 0 [] ;;
  slice_to result lenR.

Definition hRound (i : Z) (u : list byte) (lenL : Z) : go (list byte) :=
  h <- newDigest (hPers i) lenL ;;
  ret (Sum (Write h u) []).

(** ** The transform and its inverse *)

(** Lines 130-157, after the length check and the split. *)
Definition jumble_rounds (M : list byte) (lenL lenR : Z)
  : go (list byte) :=
  a <- slice_to M lenL ;;
  b <- slice_from M lenL ;;
  g0 <- gRound 0 a lenR ;;
  x <- xor b g0 ;;
  h0 <- hRound 0 x lenL ;;
  y <- xor a h0 ;;
  g1 <- gRound 1 y lenR ;;
  d <- xor x g1 ;;
  h1 <- hRound 1 d lenL ;;
  c <- xor y h1 ;;
  ret (c ++ d).

Definition F4Jumble (M : list byte) : go (list byte) :=
  let lenM := len M in
  if (lenM <? minLenM) || (lenM >? maxLenM) then fail ErrInvalidLength
  else
    let lenL := min lenH (lenM ÷ 2) in
    let lenR := lenM - lenL in
    jumble_rounds M lenL lenR.

(** Lines 185-212. *)
Definition unjumble_rounds (M : list byte) (lenL lenR : Z)
  : go (list byte) :=
  c <- slice_to M lenL ;;
  d <- slice_from M lenL ;;
  h1 <- hRound 1 d lenL ;;
  y <- xor c h1 ;;
  g1 <- gRound 1 y lenR ;;
  x <- xor d g1 ;;
  h0 <- hRound 0 x lenL ;;
  a <- xor y h0 ;;
  g0 <- gRound 0 a lenR ;;
  b <- xor x g0 ;;
  ret (a ++ b).

Definition F4JumbleInv (M : list byte) : go (list byte) :=
  let lenM := len M in
  if (lenM <? minLenM) || (lenM >? maxLenM) then fail ErrInvalidLength
  else
    let lenL := min lenH (lenM ÷ 2) in
    let lenR := lenM - lenL in
    unjumble_rounds M lenL lenR.

End Rounds.

End f4jumble.

(** * BLAKE2b

    The digest comes from [github.com/gtank/blake2/blake2b], which is not
    part of the repository.  The module below is BLAKE2b as RFC 7693
    defines it, with the salt and personalization words of its parameter
    block, for the one use the program makes of it: no key, no salt, a
    16-byte personalization and a digest of 1 to 64 bytes.  Any other
    parameter is refused with an error.  A 64-bit word is a [Z] below
    [2^64]; sums are reduced modulo [2^64]. *)

Module blake2b.

Import f4jumble.

Definition w64 (z : Z) : Z := z mod 2 ^ 64.

Definition rotr64 (x n : Z) : Z :=
  Z.lor (Z.shiftr x n) (w64 (Z.shiftl x (64 - n))).

Definition IV : list Z :=
  [0x6a09e667f3bcc908; 0xbb67ae8584caa73b; 0x3c6ef372fe94f82b;
   0xa54ff53a5f1d36f1; 0x510e527fade682d1; 0x9b05688c2b3e6c1f;
   0x1f83d9abfb41bd6b; 0x5be0cd19137e2179].

Definition SIGMA : list (list nat) :=
  [[0; 1; 2; 3; 4; 5; 6; 7; 8; 9; 10; 11; 12; 13; 14; 15];
   [14; 10; 4; 8; 9; 15; 13; 6; 1; 12; 0; 2; 11; 7; 5; 3];
   [11; 8; 12; 0; 5; 2; 15; 13; 10; 14; 3; 6; 7; 1; 9; 4];
   [7; 9; 3; 1; 13; 12; 11; 14; 2; 6; 5; 10; 4; 0; 15; 8];
   [9; 0; 5; 7; 2; 4; 10; 15; 14; 1; 11; 12; 6; 8; 3; 13];
   [2; 12; 6; 10; 0; 11; 8; 3; 4; 13; 7; 5; 15; 14; 1; 9];
   [12; 5; 1; 15; 14; 13; 4; 10; 0; 7; 6; 3; 9; 2; 8; 11];
   [13; 11; 7; 14; 12; 1; 3; 9; 5; 0; 15; 4; 8; 6; 2; 10];
   [6; 15; 14; 9; 11; 3; 0; 8; 12; 2; 13; 7; 1; 4; 10; 5];
   [10; 2; 8; 4; 7; 6; 1; 5; 15; 11; 9; 14; 3; 12; 13; 0]]%nat.

Definition word_at (v : list Z) (i : nat) : Z := nth i v 0.

(** The mixing function G of RFC 7693, section 3.1. *)
Definition G (v : list Z) (a b c d : nat) (x y : Z) : list Z :=
  let va := w64 (word_at v a + word_at v b + x) in
  let vd := rotr64 (Z.lxor (word_at v d) va) 32 in
  let vc := w64 (word_at v c + vd) in
  let vb := rotr64 (Z.lxor (word_at v b) vc) 24 in
  let va := w64 (va + vb + y) in
  let vd := rotr64 (Z.lxor vd va) 16 in
  let vc := w64 (vc + vd) in
  let vb := rotr64 (Z.lxor vb vc) 63 in
  <[a := va]> (<[b := vb]> (<[c := vc]> (<[d := vd]> v))).

Definition mix_round (m : list Z) (v : list Z) (s : list nat) : list Z :=
  let x k := word_at m (nth k s 0%nat) in
  let v := G v 0 4 8 12 (x 0%nat) (x 1%nat) in
  let v := G v 1 5 9 13 (x 2%nat) (x 3%nat) in
  let v := G v 2 6 10 14 (x 4%nat) (x 5%nat) in
  let v := G v 3 7 11 15 (x 6%nat) (x 7%nat) in
  let v := G v 0 5 10 15 (x 8%nat) (x 9%nat) in
  let v := G v 1 6 11 12 (x 10%nat) (x 11%nat) in
  let v := G v 2 7 8 13 (x 12%nat) (x 13%nat) in
  G v 3 4 9 14 (x 14%nat) (x 15%nat).

(** Little-endian words. *)
Definition le_word (bs : list byte) : Z :=
  foldr (fun b acc => b + 256 * acc) 0 bs.

Fixpoint le_words (n : nat) (bs : list byte) : list Z :=
  match n with
  | O => []
  | S n' => le_word (take 8 bs) :: le_words n' (drop 8 bs)
  end.

Definition le_bytes (w : Z) : list byte :=
  map (fun k => Z.shiftr w (8 * Z.of_nat k) mod 256) (seq 0 8).

(** The compression function F: chaining value [h], 128-byte [block],
    byte counter [t], final-block flag. *)
Definition compress (h : list Z) (block : list byte) (t : Z)
    (final : bool) : list Z :=
  let m := le_words 16 block in
  let v := h ++ IV in
  let v := <[12%nat := Z.lxor (word_at v 12) (w64 t)]> v in
  let v := <[13%nat := Z.lxor (word_at v 13) (w64 (Z.shiftr t 64))]> v in
  let v := if final
           then <[14%nat := Z.lxor (word_at v 14) (2 ^ 64 - 1)]> v
           else v in
  let v := foldl (mix_round m) v (SIGMA ++ take 2 SIGMA) in
  map (fun i => Z.lxor (Z.lxor (word_at h i) (word_at v i))
                       (word_at v (i + 8)))
      (seq 0 8).

Record Digest := mkDigest {
  h : list Z;          (* chaining value *)
  t : Z;               (* bytes compressed so far *)
  buf : list byte;     (* bytes written and not yet compressed *)
  size : Z             (* digest length *)
}.

(** The parameter block of section 2.5 with fanout 1, depth 1, the
    remaining tree fields and the salt zero. *)
Definition param_block (size : Z) (pers : list byte) : list byte :=
  [size; 0; 1; 1] ++ replicate 28 0 ++ replicate 16 0 ++ pers.

Definition NewDigest (key salt pers : list byte) (outputBytes : Z)
  : outcome Digest :=
  match key, salt with
  | [], [] =>
      if (1 <=? outputBytes) && (outputBytes <=? 64)
         && (length pers =? 16)%nat
      then Ok (mkDigest (zip_with Z.lxor IV
                           (le_words 8 (param_block outputBytes pers)))
                        0 [] outputBytes)
      else Err (ErrDigest "blake2b: unsupported parameters")
  | _, _ => Err (ErrDigest "blake2b: unsupported parameters")
  end.

(** A full buffer is compressed only when another byte arrives, so that
    the last block is always compressed by [Sum], with the final flag. *)
Definition write_byte (d : Digest) (b : byte) : Digest :=
  if (length (buf d) =? 128)%nat
  then mkDigest (compress (h d) (buf d) (t d + 128) false)
                (t d + 128) [b] (size d)
  else mkDigest (h d) (t d) (buf d ++ [b]) (size d).

Definition Write (d : Digest) (p : list byte) : Digest :=
  foldl write_byte d p.

Definition Sum (d : Digest) (b : list byte) : list byte :=
  let block := buf d ++ replicate (128 - length (buf d)) 0 in
  let out := compress (h d) block (t d + len (buf d)) true in
  b ++ take (Z.to_nat (size d)) (flat_map le_bytes out).

End blake2b.

(** * Test vector of the doc comments of [F4Jumble] and [F4JumbleInv] *)

Module vectors.

Import f4jumble.

Definition src : list byte :=
  [0x5d; 0x7a; 0x8f; 0x73; 0x9a; 0x2d; 0x9e; 0x94; 0x5b; 0x0c; 0xe1; 0x52;
   0xa8; 0x04; 0x9e; 0x29; 0x4c; 0x4d; 0x6e; 0x66; 0xb1; 0x64; 0x93; 0x9d;
   0xaf; 0xfa; 0x2e; 0xf6; 0xee; 0x69; 0x21; 0x48; 0x1c; 0xdd; 0x86; 0xb3;
   0xcc; 0x43; 0x18; 0xd9; 0x61; 0x4f; 0xc8; 0x20; 0x90; 0x5d; 0x04; 0x2b].

Definition jumbled : list byte :=
  [0x03; 0x04; 0xd0; 0x29; 0x14; 0x1b; 0x99; 0x5d; 0xa5; 0x38; 0x7c; 0x12;
   0x59; 0x70; 0x67; 0x35; 0x04; 0xd6; 0xc7; 0x64; 0xd9; 0x1e; 0xa6; 0xc0;
   0x82; 0x12; 0x37; 0x70; 0xc7; 0x13; 0x9c; 0xcd; 0x88; 0xee; 0x27; 0x36;
   0x8c; 0xd0; 0xc0; 0x92; 0x1a; 0x04; 0x44; 0xc8; 0xe5; 0x85; 0x8d; 0x22].

(** The same vectors written in hexadecimal, as the specification prints
    them. *)
Definition hex_digit (c : ascii) : Z :=
  let n := Z.of_N (N_of_ascii c) in
  if (48 <=? n) && (n <=? 57) then n - 48
  else if (97 <=? n) && (n <=? 102) then n - 87
  else 0.

Fixpoint unhex (s : string) : list byte :=
  match s with
  | String hi (String lo rest) =>
      (16 * hex_digit hi + hex_digit lo) :: unhex rest
  | _ => []
  end.

(** The input of the known-answer test of the specification. *)
Definition spec_src : list byte :=
  unhex ("5d7a8f739a2d9e945b0ce152a8049e294c4d6e66b164939d"
      ++ "afaa2ef6ee6921481cdd86b3cc4318d9614fc820905d042b").

(** Its expected output there. *)
Definition spec_jumbled : list byte :=
  unhex ("0304d029141b995da5387c125970673504d6c764d91ea6c0"
      ++ "82123770c7139ccd88ee27368cd0c0921a0444c8e5858d22").

(** What the program returns on [spec_src]. *)
Definition spec_src_jumbled : list byte :=
  unhex ("ea93d8216ca8d91667c8be4221209767bf0cc0f34656ee65"
      ++ "991db91e4d6d2297da4b819354a09526cfc6409790ea4360").

End vectors.

(** * The transform as the specification words it

    The digest of [u] under a personalization and a digest length, the
    expanding and compressing round functions and the two Feistel
    pipelines, as pure functions on byte sequences.  The theorems below
    relate the program to them. *)

Module spec.

Import f4jumble.

Section Spec.

Variable Digest : Type.
Variable NewDigest :
  list byte -> list byte -> list byte -> Z -> outcome Digest.
Variable Write : Digest -> list byte -> Digest.
Variable Sum : Digest -> list byte -> list byte.

(** The personalized hash: no key, no salt, one write, one sum. *)
Definition digest (pers : list byte) (n : Z) (u : list byte)
  : list byte :=
  match NewDigest [] [] pers n with
  | Ok d => Sum (Write d u) []
  | _ => []
  end.

(** The contract of the hash, as section 6 of the specification gives
    it: on a 16-byte tag and a length in 1..64 it does not fail, ... *)
Definition digest_total : Prop :=
  forall (pers : list byte) (n : Z),
    length pers = 16%nat -> 1 <= n <= 64 ->
    exists d, NewDigest [] [] pers n = Ok d.

(** ... and the digest has exactly the requested length. *)
Definition digest_exact : Prop :=
  forall (pers : list byte) (n : Z) (d : Digest) (u : list byte),
    NewDigest [] [] pers n = Ok d ->
    length (Sum (Write d u) []) = Z.to_nat n.

(** Blocks [j = from, from+1, ..., from+n-1] of G, concatenated. *)
Definition G_blocks (i : Z) (u : list byte) (from : Z) (n : nat)
  : list byte :=
  concat (map (fun q => digest (gPers i (from + Z.of_nat q)) 64 u)
              (seq 0 n)).

(** G(i, u, outLen): [blocks] blocks, truncated to [outLen] bytes. *)
Definition G (i : Z) (u : list byte) (blocks : nat) (outLen : Z)
  : list byte :=
  take (Z.to_nat outLen) (G_blocks i u 0 blocks).

(** The constructor calls G makes, in order. *)
Definition G_calls (i : Z) (from : Z) (n : nat) : list event :=
  map (fun q => EvNewDigest (gPers i (from + Z.of_nat q)) 64) (seq 0 n).

Definition H (i : Z) (u : list byte) (outLen : Z) : list byte :=
  digest (hPers i) outLen u.

Definition xor_bytes (x y : list byte) : list byte :=
  zip_with Z.lxor x y.

Definition lenL_of (lenM : Z) : Z := Z.min 64 (lenM / 2).
Definition lenR_of (lenM : Z) : Z := lenM - lenL_of lenM.
Definition blocks_of (outLen : Z) : nat := Z.to_nat ((outLen + 63) / 64).

Definition jumble (M : list byte) : list byte :=
  let lenL := lenL_of (len M) in
  let lenR := lenR_of (len M) in
  let a := take (Z.to_nat lenL) M in
  let b := drop (Z.to_nat lenL) M in
  let x := xor_bytes b (G 0 a (blocks_of lenR) lenR) in
  let y := xor_bytes a (H 0 x lenL) in
  let d := xor_bytes x (G 1 y (blocks_of lenR) lenR) in
  let c := xor_bytes y (H 1 d lenL) in
  c ++ d.

Definition unjumble (M : list byte) : list byte :=
  let lenL := lenL_of (len M) in
  let lenR := lenR_of (len M) in
  let c := take (Z.to_nat lenL) M in
  let d := drop (Z.to_nat lenL) M in
  let y := xor_bytes c (H 1 d lenL) in
  let x := xor_bytes d (G 1 y (blocks_of lenR) lenR) in
  let a := xor_bytes y (H 0 x lenL) in
  let b := xor_bytes x (G 0 a (blocks_of lenR) lenR) in
  a ++ b.

End Spec.



(** A run that ended in an error or a panic. *)
Definition failed {A} (o : outcome A) : Prop :=
  match o with Ok _ => False | _ => True end.

(** The tags as the specification spells them. *)
Definition ascii_bytes (s : string) : list byte :=
  map (fun c => Z.of_N (N_of_ascii c)) (list_ascii_of_string s).

Definition H_tag (i : byte) : list byte :=
  ascii_bytes "UA_F4Jumble_" ++ ascii_bytes "H" ++ [i; 0; 0].

Definition G_tag (i : byte) (j : Z) : list byte :=
  ascii_bytes "UA_F4Jumble_" ++ ascii_bytes "G"
    ++ [i; Z.land j 255; Z.shiftr j 8].

End spec.

(** * A digest that cannot be constructed

    The error paths of the program are exercised with a constructor that
    always returns an error. *)

Module stubs.

Import f4jumble.

Definition NewDigest (key salt pers : list byte) (outputBytes : Z)
  : outcome unit :=
  Err (ErrDigest "blake2b: digest unavailable").

Definition Write (d : unit) (p : list byte) : unit := d.

Definition Sum (d : unit) (b : list byte) : list byte := b.

End stubs.

(** * Properties *)

Import f4jumble.

(** ** The monad *)

Lemma bind_run {A B} (m : go A) (f : A -> go B) (t : list event) (a : A) :
  m = (t, Ok a) -> bind m f = (t ++ trace (f a), result (f a)).
Proof.
  intros ->. unfold bind, trace, result. by destruct (f a).
Qed.

Lemma slice_to_run {A} (s : list A) (n : Z) :
  0 <= n <= len s -> slice_to s n = ([], Ok (take (Z.to_nat n) s)).
Proof.
  intros Hn. unfold slice_to.
  by rewrite (proj2 (Z.leb_le _ _)), (proj2 (Z.leb_le _ _)) by lia.
Qed.

Lemma slice_from_run {A} (s : list A) (n : Z) :
  0 <= n <= len s -> slice_from s n = ([], Ok (drop (Z.to_nat n) s)).
Proof.
  intros Hn. unfold slice_from.
  by rewrite (proj2 (Z.leb_le _ _)), (proj2 (Z.leb_le _ _)) by lia.
Qed.

(** ** [xor] *)

Lemma xor_loop_in_range (x y : list byte) (m k : nat) (r : list byte) :
  (k + m = length x)%nat -> (length x <= length y)%nat ->
  length r = length x ->
  xor_loop x y (seq k m) r
  = Ok (take k r ++ zip_with Z.lxor (drop k x) (drop k y)).
Proof.
  revert k r. induction m as [|m IH]; intros k r Hk Hxy Hr; simpl.
  - rewrite Nat.add_0_r in Hk. subst k.
    rewrite drop_all, <- Hr, firstn_all. simpl. by rewrite app_nil_r.
  - assert (Hkx : (k < length x)%nat) by lia.
    assert (Hky : (k < length y)%nat) by lia.
    destruct (lookup_lt_is_Some_2 x k Hkx) as [xi Hxi].
    destruct (lookup_lt_is_Some_2 y k Hky) as [yi Hyi].
    rewrite (proj2 (Z.leb_le _ _)) by (unfold len; lia).
    rewrite Hxi, Hyi.
    destruct (decide (k < length r)%nat) as [_|Hn]; [|lia].
    rewrite IH by (rewrite ?length_insert; lia).
    f_equal.
    rewrite (drop_S x xi k Hxi), (drop_S y yi k Hyi). simpl.
    rewrite (take_S_r (<[k:=Z.lxor xi yi]> r) k (Z.lxor xi yi))
      by (apply list_lookup_insert_eq; lia).
    rewrite take_insert_ge by lia.
    by rewrite <- app_assoc.
Qed.

Lemma xor_body_in_range (x y : list byte) :
  (length x <= length y)%nat -> xor_body x y = Ok (zip_with Z.lxor x y).
Proof.
  intros Hxy. unfold xor_body.
  rewrite xor_loop_in_range by (rewrite ?length_replicate; lia).
  by rewrite take_0, !drop_0.
Qed.

Lemma xor_loop_out_of_range (x y : list byte) (m k : nat) (r : list byte) :
  (k + m = length x)%nat -> (k <= length y < length x)%nat ->
  length r = length x ->
  xor_loop x y (seq k m) r = Panic.
Proof.
  revert k r. induction m as [|m IH]; intros k r Hk Hxy Hr; simpl.
  - lia.
  - rewrite (proj2 (Z.leb_le _ _)) by (unfold len; lia).
    destruct (x !! k) as [xi|]; [|done].
    destruct (decide (k = length y)) as [->|Hne].
    + by rewrite (lookup_ge_None_2 y (length y)) by lia.
    + destruct (lookup_lt_is_Some_2 y k) as [yi ->]; [lia|].
      destruct (decide (k < length r)%nat); [|done].
      apply IH; rewrite ?length_insert; lia.
Qed.

Lemma xor_body_out_of_range (x y : list byte) :
  (length y < length x)%nat -> xor_body x y = Panic.
Proof.
  intros Hxy. unfold xor_body.
  apply xor_loop_out_of_range; rewrite ?length_replicate; lia.
Qed.

Lemma xor_run (x y : list byte) :
  length x = length y ->
  xor x y = ([EvXor x y], Ok (spec.xor_bytes x y)).
Proof.
  intros Hxy. unfold xor, emit, lift, bind.
  by rewrite xor_body_in_range by lia.
Qed.

Lemma xor_bytes_length (x y : list byte) :
  length x = length y -> length (spec.xor_bytes x y) = length x.
Proof. intros Hxy. unfold spec.xor_bytes. rewrite length_zip_with. lia. Qed.

Lemma xor_bytes_cancel (x y : list byte) :
  length x = length y -> spec.xor_bytes (spec.xor_bytes x y) y = x.
Proof.
  unfold spec.xor_bytes. revert y.
  induction x as [|a x IH]; intros [|b y] Hxy; simpl in *; try done.
  rewrite IH by lia. f_equal.
  by rewrite Z.lxor_assoc, Z.lxor_nilpotent, Z.lxor_0_r.
Qed.

(** ** The round functions under the contract of the digest *)

Lemma hPers_length (i : Z) : length (hPers i) = 16%nat.
Proof. reflexivity. Qed.

Lemma gPers_length (i j : Z) : length (gPers i j) = 16%nat.
Proof. reflexivity. Qed.

Lemma wrap_int_twos_complement (z : Z) :
  MinInt <= z <= MaxInt + 2 ^ 64 ->
  wrap_int z = (z - MinInt) mod 2 ^ 64 + MinInt.
Proof.
  unfold wrap_int, MinInt, MaxInt. intros Hz.
  destruct (Z.gtb_spec z (2 ^ 63 - 1)) as [Hgt|Hle].
  - rewrite <- (Z.mod_unique (z - - 2 ^ 63) (2 ^ 64) 1 (z - 2 ^ 63)); lia.
  - rewrite Z.mod_small; lia.
Qed.

Lemma wrap_int_in_range (z : Z) : z <= MaxInt -> wrap_int z = z.
Proof.
  intros Hz. unfold wrap_int. by destruct (Z.gtb_spec z MaxInt); [lia|].
Qed.

Lemma ceilDiv_lenH (n : Z) :
  0 <= n <= MaxInt - 63 -> ceilDiv n lenH = (n + 63) / 64.
Proof.
  intros Hn. unfold ceilDiv, lenH.
  rewrite wrap_int_in_range by lia.
  rewrite Z.quot_div_nonneg by lia. f_equal. lia.
Qed.

(** A length the transforms handle is far below [MaxInt]. *)
Lemma valid_length_int (n : Z) : n <= 4194368 -> n <= MaxInt - 63.
Proof. unfold MaxInt. lia. Qed.

Lemma blocks_of_bounds (n : Z) :
  0 <= n ->
  64 * (Z.of_nat (spec.blocks_of n) - 1) < n <= 64 * Z.of_nat (spec.blocks_of n).
Proof.
  intros Hn. unfold spec.blocks_of.
  pose proof (Z.div_mod (n + 63) 64 ltac:(lia)) as Hd.
  pose proof (Z.mod_pos_bound (n + 63) 64 ltac:(lia)) as Hm.
  assert (0 <= (n + 63) / 64) by (apply Z.div_pos; lia).
  rewrite Z2Nat.id by lia. lia.
Qed.

Lemma split_valid (lenM : Z) :
  minLenM <= lenM <= maxLenM ->
  min lenH (lenM ÷ 2) = spec.lenL_of lenM
  /\ 24 <= spec.lenL_of lenM <= 64
  /\ spec.lenL_of lenM <= spec.lenR_of lenM
  /\ spec.lenL_of lenM + spec.lenR_of lenM = lenM.
Proof.
  unfold minLenM, maxLenM, min, lenH, spec.lenR_of, spec.lenL_of.
  intros Hv. rewrite Z.quot_div_nonneg by lia.
  pose proof (Z.div_mod lenM 2 ltac:(lia)) as Hd.
  pose proof (Z.mod_pos_bound lenM 2 ltac:(lia)) as Hm.
  destruct (Z.ltb_spec 64 (lenM / 2)); lia.
Qed.

Lemma length_check_valid (lenM : Z) :
  minLenM <= lenM <= maxLenM ->
  (lenM <? minLenM) || (lenM >? maxLenM) = false.
Proof.
  intros Hv. rewrite Z.gtb_ltb.
  destruct (Z.ltb_spec lenM minLenM), (Z.ltb_spec maxLenM lenM);
    simpl; lia || done.
Qed.

Lemma length_check_invalid (lenM : Z) :
  lenM < minLenM \/ maxLenM < lenM ->
  (lenM <? minLenM) || (lenM >? maxLenM) = true.
Proof.
  intros Hv. rewrite Z.gtb_ltb.
  destruct (Z.ltb_spec lenM minLenM), (Z.ltb_spec maxLenM lenM);
    simpl; lia || done.
Qed.

Lemma xor_calls_G_calls (i j : Z) (n : nat) :
  xor_calls (spec.G_calls i j n) = [].
Proof.
  unfold spec.G_calls, xor_calls.
  induction (seq 0 n) as [|q l IH]; [done|].
  cbn [map omap list_omap]. by rewrite <- IH.
Qed.

(** X12: on a valid length every [int] the two transforms compute
    ([lenM / 2], [lenL], [lenR], the numerator of [ceilDiv]) lies between
    0 and [2^31], and the loop of [gRound] runs at most 65536 times: no
    [int] operation can overflow, also where [int] has 32 bits, and the
    model of [int] by [Z] loses nothing there. *)
Lemma int_arithmetic_in_range (lenM : Z) :
  minLenM <= lenM <= maxLenM ->
  let lenL := min lenH (lenM ÷ 2) in
  let lenR := lenM - lenL in
  0 <= lenM ÷ 2 < 2 ^ 31
  /\ 0 <= lenL < 2 ^ 31
  /\ 0 <= lenR < 2 ^ 31
  /\ 0 <= lenR + lenH - 1 < 2 ^ 31
  /\ 0 <= ceilDiv lenR lenH <= 65536.
Proof.
  intros Hv lenL lenR. subst lenL lenR.
  unfold minLenM, maxLenM, min in *.
  rewrite Z.quot_div_nonneg by lia.
  pose proof (Z.div_mod lenM 2 ltac:(lia)) as Hd.
  pose proof (Z.mod_pos_bound lenM 2 ltac:(lia)) as Hm.
  rewrite ceilDiv_lenH
    by (unfold MaxInt, lenH; destruct (Z.ltb_spec 64 (lenM / 2)); lia).
  unfold lenH.
  destruct (Z.ltb_spec 64 (lenM / 2)) as [Hc|Hc].
  - assert (0 <= (lenM - 64 + 63) / 64 < 65537)
      by (split; [apply Z.div_pos; lia
                 | apply Z.div_lt_upper_bound; lia]).
    lia.
  - assert (0 <= (lenM - lenM / 2 + 63) / 64 < 65537)
      by (split; [apply Z.div_pos; lia
                 | apply Z.div_lt_upper_bound; lia]).
    lia.
Qed.

(** A right length of a valid message is a non-negative [int] that
    [ceilDiv] does not wrap. *)
Ltac length_is_int :=
  split; [lia | apply valid_length_int; unfold maxLenM in *; lia].

(** One step of a run: the head of a [bind] is known to return. *)
Ltac step H :=
  rewrite (bind_run _ _ _ _ H); unfold trace, result; cbn [fst snd].

Section Contract.

Context (Digest : Type)
        (NewDigest : list byte -> list byte -> list byte -> Z
                     -> outcome Digest)
        (Write : Digest -> list byte -> Digest)
        (Sum : Digest -> list byte -> list byte).

Local Abbreviation digest := (spec.digest Digest NewDigest Write Sum).
Local Abbreviation newDigest := (newDigest Digest NewDigest).
Local Abbreviation inner := (inner Digest NewDigest Write Sum).
Local Abbreviation gRound_loop := (gRound_loop Digest NewDigest Write Sum).
Local Abbreviation gRound := (gRound Digest NewDigest Write Sum).
Local Abbreviation hRound := (hRound Digest NewDigest Write Sum).
Local Abbreviation G_blocks := (spec.G_blocks Digest NewDigest Write Sum).
Local Abbreviation G := (spec.G Digest NewDigest Write Sum).
Local Abbreviation H := (spec.H Digest NewDigest Write Sum).

Hypothesis Htotal : spec.digest_total Digest NewDigest.
Hypothesis Hexact : spec.digest_exact Digest NewDigest Write Sum.

Lemma digest_run (pers u : list byte) (n : Z) :
  length pers = 16%nat -> 1 <= n <= 64 ->
  (g <- newDigest pers n ;; ret (Sum (Write g u) []))
  = ([EvNewDigest pers n], Ok (digest pers n u)).
Proof.
  intros Hp Hn. destruct (Htotal pers n Hp Hn) as [d Hd].
  unfold f4jumble.newDigest, spec.digest, emit, lift, bind, ret.
  by rewrite Hd.
Qed.

Lemma digest_length (pers u : list byte) (n : Z) :
  length pers = 16%nat -> 1 <= n <= 64 ->
  length (digest pers n u) = Z.to_nat n.
Proof.
  intros Hp Hn. destruct (Htotal pers n Hp Hn) as [d Hd].
  unfold spec.digest. rewrite Hd. exact (Hexact pers n d u Hd).
Qed.

Lemma hRound_run (i : Z) (u : list byte) (lenL : Z) :
  1 <= lenL <= 64 ->
  hRound i u lenL = ([EvNewDigest (hPers i) lenL], Ok (H i u lenL)).
Proof. intros. by apply digest_run. Qed.

Lemma H_length (i : Z) (u : list byte) (lenL : Z) :
  1 <= lenL <= 64 -> length (H i u lenL) = Z.to_nat lenL.
Proof. intros. by apply digest_length. Qed.

Lemma inner_run (i : Z) (u : list byte) (j : Z) :
  inner i u j
  = ([EvNewDigest (gPers i j) 64], Ok (digest (gPers i j) 64 u)).
Proof. apply digest_run; [done | lia]. Qed.

Lemma G_blocks_S (i : Z) (u : list byte) (j : Z) (k : nat) :
  G_blocks i u j (S k)
  = digest (gPers i j) 64 u ++ G_blocks i u (j + 1) k.
Proof.
  unfold spec.G_blocks. simpl. rewrite Z.add_0_r. f_equal. f_equal.
  rewrite <- fmap_S_seq, map_map.
  apply map_ext. intros q.
  by replace (j + Z.of_nat (S q)) with (j + 1 + Z.of_nat q) by lia.
Qed.

Lemma G_calls_S (i j : Z) (k : nat) :
  spec.G_calls i j (S k)
  = EvNewDigest (gPers i j) 64 :: spec.G_calls i (j + 1) k.
Proof.
  unfold spec.G_calls. simpl. rewrite Z.add_0_r. f_equal.
  rewrite <- fmap_S_seq, map_map.
  apply map_ext. intros q.
  by replace (j + Z.of_nat (S q)) with (j + 1 + Z.of_nat q) by lia.
Qed.

Lemma gRound_loop_run (i : Z) (u : list byte) (k : nat) (j : Z)
    (acc : list byte) :
  gRound_loop i u k j acc
  = (spec.G_calls i j k, Ok (acc ++ G_blocks i u j k)).
Proof.
  revert j acc. induction k as [|k IH]; intros j acc.
  - simpl. unfold ret, spec.G_calls, spec.G_blocks. simpl.
    by rewrite app_nil_r.
  - cbn [f4jumble.gRound_loop].
    rewrite (bind_run _ _ _ _ (inner_run i u j)), IH.
    unfold trace, result. cbn [fst snd].
    by rewrite G_calls_S, G_blocks_S, app_assoc.
Qed.

Lemma G_blocks_length (i : Z) (u : list byte) (j : Z) (k : nat) :
  length (G_blocks i u j k) = (64 * k)%nat.
Proof.
  revert j. induction k as [|k IH]; intros j; [done|].
  rewrite G_blocks_S, length_app, IH.
  rewrite digest_length by (done || lia). lia.
Qed.

Lemma G_length (i : Z) (u : list byte) (lenR : Z) :
  0 <= lenR -> length (G i u (spec.blocks_of lenR) lenR) = Z.to_nat lenR.
Proof.
  intros Hn. unfold spec.G.
  rewrite length_take, G_blocks_length.
  pose proof (blocks_of_bounds lenR Hn). lia.
Qed.

Lemma gRound_run (i : Z) (u : list byte) (lenR : Z) :
  0 <= lenR <= MaxInt - 63 ->
  gRound i u lenR
  = (spec.G_calls i 0 (spec.blocks_of lenR),
     Ok (G i u (spec.blocks_of lenR) lenR)).
Proof.
  intros Hn. unfold f4jumble.gRound.
  rewrite ceilDiv_lenH by done. fold (spec.blocks_of lenR).
  destruct Hn as [Hn _].
  rewrite (bind_run _ _ _ _ (gRound_loop_run i u _ 0 [])).
  rewrite app_nil_l, slice_to_run.
  - unfold trace, result. cbn [fst snd]. by rewrite app_nil_r.
  - unfold len. rewrite G_blocks_length.
    pose proof (blocks_of_bounds lenR Hn). lia.
Qed.

Local Abbreviation F4Jumble := (F4Jumble Digest NewDigest Write Sum).
Local Abbreviation F4JumbleInv :=
  (F4JumbleInv Digest NewDigest Write Sum).

(** The whole run of [F4Jumble] on a message of valid length. *)
Lemma F4Jumble_run (M : list byte) :
  minLenM <= len M <= maxLenM ->
  let lenL := spec.lenL_of (len M) in
  let lenR := spec.lenR_of (len M) in
  let n := spec.blocks_of lenR in
  let a := take (Z.to_nat lenL) M in
  let b := drop (Z.to_nat lenL) M in
  let g0 := G 0 a n lenR in
  let x := spec.xor_bytes b g0 in
  let h0 := H 0 x lenL in
  let y := spec.xor_bytes a h0 in
  let g1 := G 1 y n lenR in
  let d := spec.xor_bytes x g1 in
  let h1 := H 1 d lenL in
  let c := spec.xor_bytes y h1 in
  (length a = Z.to_nat lenL /\ length h0 = Z.to_nat lenL
   /\ length y = Z.to_nat lenL /\ length h1 = Z.to_nat lenL
   /\ length c = Z.to_nat lenL)
  /\ (length b = Z.to_nat lenR /\ length g0 = Z.to_nat lenR
      /\ length x = Z.to_nat lenR /\ length g1 = Z.to_nat lenR
      /\ length d = Z.to_nat lenR)
  /\ F4Jumble M
     = (spec.G_calls 0 0 n
          ++ [EvXor b g0; EvNewDigest (hPers 0) lenL; EvXor a h0]
          ++ spec.G_calls 1 0 n
          ++ [EvXor x g1; EvNewDigest (hPers 1) lenL; EvXor y h1],
        Ok (c ++ d)).
Proof.
  intros Hv lenL lenR n a b g0 x h0 y g1 d h1 c.
  destruct (split_valid _ Hv) as (Hmin & HL & HLR & Hsum).
  fold lenL lenR in Hmin, HL, HLR, Hsum.
  assert (Hlen : len M = Z.of_nat (length M)) by done.
  assert (Ha : length a = Z.to_nat lenL)
    by (subst a; rewrite length_take; lia).
  assert (Hb : length b = Z.to_nat lenR)
    by (subst b; rewrite length_drop; lia).
  assert (Hg0 : length g0 = Z.to_nat lenR) by (apply G_length; lia).
  assert (Hx : length x = Z.to_nat lenR)
    by (subst x; rewrite xor_bytes_length; lia).
  assert (Hh0 : length h0 = Z.to_nat lenL) by (apply H_length; lia).
  assert (Hy : length y = Z.to_nat lenL)
    by (subst y; rewrite xor_bytes_length; lia).
  assert (Hg1 : length g1 = Z.to_nat lenR) by (apply G_length; lia).
  assert (Hd : length d = Z.to_nat lenR)
    by (subst d; rewrite xor_bytes_length; lia).
  assert (Hh1 : length h1 = Z.to_nat lenL) by (apply H_length; lia).
  assert (Hc : length c = Z.to_nat lenL)
    by (subst c; rewrite xor_bytes_length; lia).
  split; [done|]. split; [done|].
  unfold f4jumble.F4Jumble. rewrite length_check_valid by done.
  cbv zeta. rewrite Hmin. fold lenL. fold lenR.
  unfold jumble_rounds.
  step (slice_to_run M lenL ltac:(lia)). fold a.
  step (slice_from_run M lenL ltac:(lia)). fold b.
  step (gRound_run 0 a lenR ltac:(length_is_int)). fold n g0.
  step (xor_run b g0 ltac:(lia)). fold x.
  step (hRound_run 0 x lenL ltac:(lia)). fold h0.
  step (xor_run a h0 ltac:(lia)). fold y.
  step (gRound_run 1 y lenR ltac:(length_is_int)). fold g1.
  step (xor_run x g1 ltac:(lia)). fold d.
  step (hRound_run 1 d lenL ltac:(lia)). fold h1.
  step (xor_run y h1 ltac:(lia)). fold c.
  unfold ret. cbn [fst snd app].
  by rewrite <- ?app_assoc, ?app_nil_r.
Qed.

(** The whole run of [F4JumbleInv] on a message of valid length. *)
Lemma F4JumbleInv_run (M : list byte) :
  minLenM <= len M <= maxLenM ->
  let lenL := spec.lenL_of (len M) in
  let lenR := spec.lenR_of (len M) in
  let n := spec.blocks_of lenR in
  let c := take (Z.to_nat lenL) M in
  let d := drop (Z.to_nat lenL) M in
  let h1 := H 1 d lenL in
  let y := spec.xor_bytes c h1 in
  let g1 := G 1 y n lenR in
  let x := spec.xor_bytes d g1 in
  let h0 := H 0 x lenL in
  let a := spec.xor_bytes y h0 in
  let g0 := G 0 a n lenR in
  let b := spec.xor_bytes x g0 in
  (length c = Z.to_nat lenL /\ length h1 = Z.to_nat lenL
   /\ length y = Z.to_nat lenL /\ length h0 = Z.to_nat lenL
   /\ length a = Z.to_nat lenL)
  /\ (length d = Z.to_nat lenR /\ length g1 = Z.to_nat lenR
      /\ length x = Z.to_nat lenR /\ length g0 = Z.to_nat lenR
      /\ length b = Z.to_nat lenR)
  /\ F4JumbleInv M
     = ([EvNewDigest (hPers 1) lenL; EvXor c h1]
          ++ spec.G_calls 1 0 n
          ++ [EvXor d g1; EvNewDigest (hPers 0) lenL; EvXor y h0]
          ++ spec.G_calls 0 0 n
          ++ [EvXor x g0],
        Ok (a ++ b)).
Proof.
  intros Hv lenL lenR n c d h1 y g1 x h0 a g0 b.
  destruct (split_valid _ Hv) as (Hmin & HL & HLR & Hsum).
  fold lenL lenR in Hmin, HL, HLR, Hsum.
  assert (Hlen : len M = Z.of_nat (length M)) by done.
  assert (Hc : length c = Z.to_nat lenL)
    by (subst c; rewrite length_take; lia).
  assert (Hd : length d = Z.to_nat lenR)
    by (subst d; rewrite length_drop; lia).
  assert (Hh1 : length h1 = Z.to_nat lenL) by (apply H_length; lia).
  assert (Hy : length y = Z.to_nat lenL)
    by (subst y; rewrite xor_bytes_length; lia).
  assert (Hg1 : length g1 = Z.to_nat lenR) by (apply G_length; lia).
  assert (Hx : length x = Z.to_nat lenR)
    by (subst x; rewrite xor_bytes_length; lia).
  assert (Hh0 : length h0 = Z.to_nat lenL) by (apply H_length; lia).
  assert (Ha : length a = Z.to_nat lenL)
    by (subst a; rewrite xor_bytes_length; lia).
  assert (Hg0 : length g0 = Z.to_nat lenR) by (apply G_length; lia).
  assert (Hb : length b = Z.to_nat lenR)
    by (subst b; rewrite xor_bytes_length; lia).
  split; [done|]. split; [done|].
  unfold f4jumble.F4JumbleInv. rewrite length_check_valid by done.
  cbv zeta. rewrite Hmin. fold lenL. fold lenR.
  unfold unjumble_rounds.
  step (slice_to_run M lenL ltac:(lia)). fold c.
  step (slice_from_run M lenL ltac:(lia)). fold d.
  step (hRound_run 1 d lenL ltac:(lia)). fold h1.
  step (xor_run c h1 ltac:(lia)). fold y.
  step (gRound_run 1 y lenR ltac:(length_is_int)). fold n g1.
  step (xor_run d g1 ltac:(lia)). fold x.
  step (hRound_run 0 x lenL ltac:(lia)). fold h0.
  step (xor_run y h0 ltac:(lia)). fold a.
  step (gRound_run 0 a lenR ltac:(length_is_int)). fold g0.
  step (xor_run x g0 ltac:(lia)). fold b.
  unfold ret. cbn [fst snd app].
  by rewrite <- ?app_assoc, ?app_nil_r.
Qed.

(** The four calls to [xor] of each transform. *)
Lemma F4Jumble_xor_calls (M : list byte) :
  minLenM <= len M <= maxLenM ->
  exists (a h0 y h1 b g0 x g1 : list byte),
    xor_calls (trace (F4Jumble M)) = [(b, g0); (a, h0); (x, g1); (y, h1)]
    /\ Forall (fun s => len s = spec.lenL_of (len M)) [a; h0; y; h1]
    /\ Forall (fun s => len s = spec.lenR_of (len M)) [b; g0; x; g1].
Proof.
  intros Hv. destruct (split_valid _ Hv) as (_ & HL & HLR & Hsum).
  pose proof (F4Jumble_run M Hv) as Hrun. cbv zeta in Hrun.
  destruct Hrun as ((Ha & Hh0 & Hy & Hh1 & _)
                    & (Hb & Hg0 & Hx & Hg1 & _) & ->).
  unfold trace. cbn [fst].
  unfold xor_calls. rewrite !omap_app. fold xor_calls.
  rewrite !xor_calls_G_calls. cbn [omap list_omap app].
  do 8 eexists. split; [reflexivity|].
  split;
    repeat first [ apply List.Forall_nil
                 | apply List.Forall_cons; [unfold len in *; lia|] ].
Qed.

Lemma F4JumbleInv_xor_calls (M : list byte) :
  minLenM <= len M <= maxLenM ->
  exists (c h1 y h0 d g1 x g0 : list byte),
    xor_calls (trace (F4JumbleInv M))
    = [(c, h1); (d, g1); (y, h0); (x, g0)]
    /\ Forall (fun s => len s = spec.lenL_of (len M)) [c; h1; y; h0]
    /\ Forall (fun s => len s = spec.lenR_of (len M)) [d; g1; x; g0].
Proof.
  intros Hv. destruct (split_valid _ Hv) as (_ & HL & HLR & Hsum).
  pose proof (F4JumbleInv_run M Hv) as Hrun. cbv zeta in Hrun.
  destruct Hrun as ((Hc & Hh1 & Hy & Hh0 & _)
                    & (Hd & Hg1 & Hx & Hg0 & _) & ->).
  unfold trace. cbn [fst].
  unfold xor_calls. rewrite !omap_app. fold xor_calls.
  rewrite !xor_calls_G_calls. cbn [omap list_omap app].
  do 8 eexists. split; [reflexivity|].
  split;
    repeat first [ apply List.Forall_nil
                 | apply List.Forall_cons; [unfold len in *; lia|] ].
Qed.

Lemma F4Jumble_result (M : list byte) :
  minLenM <= len M <= maxLenM ->
  result (F4Jumble M) = Ok (spec.jumble Digest NewDigest Write Sum M)
  /\ length (spec.jumble Digest NewDigest Write Sum M) = length M.
Proof.
  intros Hv.
  destruct (F4Jumble_run M Hv) as ((_ & _ & _ & _ & Hc)
                                   & (_ & _ & _ & _ & Hd) & Hrun).
  destruct (split_valid _ Hv) as (_ & HL & HLR & Hsum).
  split.
  - by rewrite Hrun.
  - unfold spec.jumble. cbv zeta. rewrite length_app, Hc, Hd.
    unfold len in *. lia.
Qed.

Lemma F4JumbleInv_result (M : list byte) :
  minLenM <= len M <= maxLenM ->
  result (F4JumbleInv M) = Ok (spec.unjumble Digest NewDigest Write Sum M)
  /\ length (spec.unjumble Digest NewDigest Write Sum M) = length M.
Proof.
  intros Hv.
  destruct (F4JumbleInv_run M Hv) as ((_ & _ & _ & _ & Ha)
                                      & (_ & _ & _ & _ & Hb) & Hrun).
  destruct (split_valid _ Hv) as (_ & HL & HLR & Hsum).
  split.
  - by rewrite Hrun.
  - unfold spec.unjumble. cbv zeta. rewrite length_app, Ha, Hb.
    unfold len in *. lia.
Qed.

(** The Feistel cancellation, on the pure pipelines. *)
Lemma unjumble_jumble (M : list byte) :
  minLenM <= len M <= maxLenM ->
  spec.unjumble Digest NewDigest Write Sum
    (spec.jumble Digest NewDigest Write Sum M) = M.
Proof.
  intros Hv.
  destruct (F4Jumble_result M Hv) as [_ Hlen].
  destruct (F4Jumble_run M Hv) as ((Ha & Hh0 & Hy & Hh1 & Hc)
                                   & (Hb & Hg0 & Hx & Hg1 & Hd) & _).
  cbv zeta in *.
  unfold spec.unjumble.
  replace (len (spec.jumble Digest NewDigest Write Sum M)) with (len M)
    by (unfold len; by rewrite Hlen).
  unfold spec.jumble. cbv zeta.
  rewrite take_app_length' by done.
  rewrite drop_app_length' by done.
  rewrite (xor_bytes_cancel _ _ ltac:(by rewrite Hy, Hh1)).
  rewrite (xor_bytes_cancel _ _ ltac:(by rewrite Hx, Hg1)).
  rewrite (xor_bytes_cancel _ _ ltac:(by rewrite Ha, Hh0)).
  rewrite (xor_bytes_cancel _ _ ltac:(by rewrite Hb, Hg0)).
  apply take_drop.
Qed.

Lemma jumble_unjumble (M : list byte) :
  minLenM <= len M <= maxLenM ->
  spec.jumble Digest NewDigest Write Sum
    (spec.unjumble Digest NewDigest Write Sum M) = M.
Proof.
  intros Hv.
  destruct (F4JumbleInv_result M Hv) as [_ Hlen].
  destruct (F4JumbleInv_run M Hv) as ((Hc & Hh1 & Hy & Hh0 & Ha)
                                      & (Hd & Hg1 & Hx & Hg0 & Hb) & _).
  cbv zeta in *.
  unfold spec.jumble.
  replace (len (spec.unjumble Digest NewDigest Write Sum M)) with (len M)
    by (unfold len; by rewrite Hlen).
  unfold spec.unjumble. cbv zeta.
  rewrite take_app_length' by done.
  rewrite drop_app_length' by done.
  rewrite (xor_bytes_cancel _ _ ltac:(by rewrite Hx, Hg0)).
  rewrite (xor_bytes_cancel _ _ ltac:(by rewrite Hy, Hh0)).
  rewrite (xor_bytes_cancel _ _ ltac:(by rewrite Hd, Hg1)).
  rewrite (xor_bytes_cancel _ _ ltac:(by rewrite Hc, Hh1)).
  apply take_drop.
Qed.

End Contract.

(** ** The BLAKE2b model meets the contract *)

Lemma le_bytes_flat_length (ws : list Z) :
  length (flat_map blake2b.le_bytes ws) = (8 * length ws)%nat.
Proof.
  induction ws as [|w ws IH]; [done|].
  cbn [flat_map]. rewrite length_app, IH. unfold blake2b.le_bytes.
  rewrite length_map, length_seq. simpl. lia.
Qed.

Lemma compress_length (h : list Z) (block : list byte) (t : Z) (f : bool) :
  length (blake2b.compress h block t f) = 8%nat.
Proof. unfold blake2b.compress. by rewrite length_map, length_seq. Qed.

Lemma Write_size (d : blake2b.Digest) (p : list byte) :
  blake2b.size (blake2b.Write d p) = blake2b.size d.
Proof.
  unfold blake2b.Write. revert d.
  induction p as [|b p IH]; intros d; [done|].
  cbn [foldl]. rewrite IH. unfold blake2b.write_byte.
  by destruct (length (blake2b.buf d) =? 128)%nat.
Qed.

Lemma blake2b_total : spec.digest_total blake2b.Digest blake2b.NewDigest.
Proof.
  intros pers n Hp Hn. unfold blake2b.NewDigest.
  rewrite (proj2 (Z.leb_le 1 n)), (proj2 (Z.leb_le n 64)) by lia.
  rewrite Hp. simpl. eauto.
Qed.

Lemma blake2b_exact :
  spec.digest_exact blake2b.Digest blake2b.NewDigest
                    blake2b.Write blake2b.Sum.
Proof.
  intros pers n d u. unfold blake2b.NewDigest.
  destruct (Z.leb_spec 1 n); [|done].
  destruct (Z.leb_spec n 64); [|done].
  destruct (length pers =? 16)%nat; [|done].
  cbn [andb]. intros [= <-].
  unfold blake2b.Sum. cbv zeta.
  rewrite app_nil_l, length_take, le_bytes_flat_length, compress_length.
  rewrite Write_size. cbn [blake2b.size]. lia.
Qed.

(** ** Round trips and length preservation *)

(** C1: for every byte sequence [M] with [48 <= len(M) <= 4194368], and a
    digest that does not fail and returns the requested number of bytes,
    [F4Jumble(M)] returns some [J] without error, and [F4JumbleInv(J)]
    returns [M]. *)
Theorem F4JumbleInv_F4Jumble
    (Digest : Type)
    (NewDigest : list byte -> list byte -> list byte -> Z -> outcome Digest)
    (Write : Digest -> list byte -> Digest)
    (Sum : Digest -> list byte -> list byte)
    (Htotal : spec.digest_total Digest NewDigest)
    (Hexact : spec.digest_exact Digest NewDigest Write Sum)
    (M : list byte) :
  48 <= len M <= 4194368 ->
  exists J,
    result (F4Jumble Digest NewDigest Write Sum M) = Ok J
    /\ result (F4JumbleInv Digest NewDigest Write Sum J) = Ok M.
Proof.
  intros Hv.
  destruct (F4Jumble_result _ _ _ _ Htotal Hexact M Hv) as [Hj Hlen].
  eexists. split; [exact Hj|].
  assert (Hv' : minLenM <=
                len (spec.jumble Digest NewDigest Write Sum M) <= maxLenM)
    by (unfold len in *; by rewrite Hlen).
  destruct (F4JumbleInv_result _ _ _ _ Htotal Hexact _ Hv') as [Hu _].
  rewrite Hu. f_equal. by apply unjumble_jumble.
Qed.

Lemma F4JumbleInv_F4Jumble_witness :
  exists J,
    result (F4Jumble blake2b.Digest blake2b.NewDigest blake2b.Write
                     blake2b.Sum vectors.src) = Ok J
    /\ result (F4JumbleInv blake2b.Digest blake2b.NewDigest blake2b.Write
                           blake2b.Sum J) = Ok vectors.src.
Proof.
  apply (F4JumbleInv_F4Jumble _ _ _ _ blake2b_total blake2b_exact
                              vectors.src).
  vm_compute. split; discriminate.
Defined.

(** C2: for every byte sequence [M] with [48 <= len(M) <= 4194368], and a
    digest that does not fail and returns the requested number of bytes,
    [F4JumbleInv(M)] returns some [U] without error, and [F4Jumble(U)]
    returns [M]. *)
Theorem F4Jumble_F4JumbleInv
    (Digest : Type)
    (NewDigest : list byte -> list byte -> list byte -> Z -> outcome Digest)
    (Write : Digest -> list byte -> Digest)
    (Sum : Digest -> list byte -> list byte)
    (Htotal : spec.digest_total Digest NewDigest)
    (Hexact : spec.digest_exact Digest NewDigest Write Sum)
    (M : list byte) :
  48 <= len M <= 4194368 ->
  exists U,
    result (F4JumbleInv Digest NewDigest Write Sum M) = Ok U
    /\ result (F4Jumble Digest NewDigest Write Sum U) = Ok M.
Proof.
  intros Hv.
  destruct (F4JumbleInv_result _ _ _ _ Htotal Hexact M Hv) as [Hu Hlen].
  eexists. split; [exact Hu|].
  assert (Hv' : minLenM <=
                len (spec.unjumble Digest NewDigest Write Sum M) <= maxLenM)
    by (unfold len in *; by rewrite Hlen).
  destruct (F4Jumble_result _ _ _ _ Htotal Hexact _ Hv') as [Hj _].
  rewrite Hj. f_equal. by apply jumble_unjumble.
Qed.

Lemma F4Jumble_F4JumbleInv_witness :
  exists U,
    result (F4JumbleInv blake2b.Digest blake2b.NewDigest blake2b.Write
                        blake2b.Sum vectors.jumbled) = Ok U
    /\ result (F4Jumble blake2b.Digest blake2b.NewDigest blake2b.Write
                        blake2b.Sum U) = Ok vectors.jumbled.
Proof.
  apply (F4Jumble_F4JumbleInv _ _ _ _ blake2b_total blake2b_exact
                              vectors.jumbled).
  vm_compute. split; discriminate.
Defined.

(** C4: for every message [M] with [48 <= len(M) <= 4194368], and a digest
    that does not fail and returns exactly the requested number of bytes,
    [F4Jumble(M)] and [F4JumbleInv(M)] both return without error, each a
    byte sequence of exactly [len(M)] bytes. *)
Theorem F4Jumble_length_preserving
    (Digest : Type)
    (NewDigest : list byte -> list byte -> list byte -> Z -> outcome Digest)
    (Write : Digest -> list byte -> Digest)
    (Sum : Digest -> list byte -> list byte)
    (Htotal : spec.digest_total Digest NewDigest)
    (Hexact : spec.digest_exact Digest NewDigest Write Sum)
    (M : list byte) :
  48 <= len M <= 4194368 ->
  (exists J, result (F4Jumble Digest NewDigest Write Sum M) = Ok J
             /\ len J = len M)
  /\ (exists U, result (F4JumbleInv Digest NewDigest Write Sum M) = Ok U
                /\ len U = len M).
Proof.
  intros Hv.
  destruct (F4Jumble_result _ _ _ _ Htotal Hexact M Hv) as [Hj Hlj].
  destruct (F4JumbleInv_result _ _ _ _ Htotal Hexact M Hv) as [Hu Hlu].
  split; eexists; (split; [eassumption|]); unfold len; congruence.
Qed.

Lemma F4Jumble_length_preserving_witness :
  (exists J, result (F4Jumble blake2b.Digest blake2b.NewDigest
                              blake2b.Write blake2b.Sum vectors.src) = Ok J
             /\ len J = len vectors.src)
  /\ (exists U, result (F4JumbleInv blake2b.Digest blake2b.NewDigest
                                    blake2b.Write blake2b.Sum vectors.src)
                = Ok U
                /\ len U = len vectors.src).
Proof.
  apply (F4Jumble_length_preserving _ _ _ _ blake2b_total blake2b_exact
                                    vectors.src).
  vm_compute. split; discriminate.
Defined.

(** ** The split *)

(** C6: for every message length [lenM] with [48 <= lenM <= 4194368], both
    [F4Jumble] and [F4JumbleInv] run their rounds with
    [lenL = min(64, lenM div 2)] (floor division) and [lenR = lenM - lenL],
    and then [lenL <= 64], [lenL + lenR = lenM] and [lenR >= lenL]. *)
Theorem split_lengths
    (Digest : Type)
    (NewDigest : list byte -> list byte -> list byte -> Z -> outcome Digest)
    (Write : Digest -> list byte -> Digest)
    (Sum : Digest -> list byte -> list byte)
    (M : list byte) :
  48 <= len M <= 4194368 ->
  let lenL := Z.min 64 (len M / 2) in
  let lenR := len M - lenL in
  F4Jumble Digest NewDigest Write Sum M
    = jumble_rounds Digest NewDigest Write Sum M lenL lenR
  /\ F4JumbleInv Digest NewDigest Write Sum M
    = unjumble_rounds Digest NewDigest Write Sum M lenL lenR
  /\ lenL <= 64 /\ lenL + lenR = len M /\ lenR >= lenL.
Proof.
  intros Hv lenL lenR.
  destruct (split_valid (len M) Hv) as (Hmin & HL & HLR & Hsum).
  unfold spec.lenR_of, spec.lenL_of in *. fold lenL in Hmin, HL, HLR, Hsum.
  unfold F4Jumble, F4JumbleInv.
  rewrite length_check_valid by done. cbv zeta. rewrite Hmin.
  fold lenR. repeat split; lia || done.
Qed.

Lemma split_lengths_witness :
  F4Jumble blake2b.Digest blake2b.NewDigest blake2b.Write blake2b.Sum
           vectors.src
    = jumble_rounds blake2b.Digest blake2b.NewDigest blake2b.Write
                    blake2b.Sum vectors.src 24 24
  /\ F4JumbleInv blake2b.Digest blake2b.NewDigest blake2b.Write blake2b.Sum
                 vectors.src
    = unjumble_rounds blake2b.Digest blake2b.NewDigest blake2b.Write
                      blake2b.Sum vectors.src 24 24
  /\ 24 <= 64 /\ 24 + 24 = 48 /\ 24 >= 24.
Proof.
  apply (split_lengths blake2b.Digest blake2b.NewDigest blake2b.Write
                       blake2b.Sum vectors.src).
  vm_compute. split; discriminate.
Defined.

(** ** Personalization tags *)

(** C8: for every round index [i] and block index [j] with
    [0 <= j <= 65535], [hPers(i)] is the 16 bytes "UA_F4Jumble_", 'H', the
    byte [uint8(i)] (which is [i] itself for [0 <= i <= 255]) and two zero
    bytes, and [gPers(i, j)] is the 16 bytes "UA_F4Jumble_", 'G', the byte
    [uint8(i)], the low byte [j & 0xff] and the high byte [j >> 8]. *)
Theorem personalization_tags (i j : Z) :
  0 <= j <= 65535 ->
  hPers i = spec.H_tag (uint8 i)
  /\ gPers i j = spec.G_tag (uint8 i) j
  /\ length (hPers i) = 16%nat /\ length (gPers i j) = 16%nat
  /\ (0 <= i <= 255 -> uint8 i = i)
  /\ 0 <= Z.land j 255 <= 255 /\ 0 <= Z.shiftr j 8 <= 255
  /\ j = Z.land j 255 + 256 * Z.shiftr j 8.
Proof.
  intros Hj.
  assert (Hlo : Z.land j 255 = j mod 256)
    by (apply (Z.land_ones j 8); lia).
  assert (Hhi : Z.shiftr j 8 = j / 256)
    by (apply (Z.shiftr_div_pow2 j 8); lia).
  pose proof (Z.div_mod j 256 ltac:(lia)) as Hd.
  pose proof (Z.mod_pos_bound j 256 ltac:(lia)) as Hm.
  assert (0 <= j / 256 < 256)
    by (split; [apply Z.div_pos; lia | apply Z.div_lt_upper_bound; lia]).
  split; [reflexivity|]. split.
  { unfold gPers, spec.G_tag, uint8.
    rewrite Hlo, Hhi, Z.mod_mod, (Z.mod_small (j / 256)) by lia.
    reflexivity. }
  split; [reflexivity|]. split; [reflexivity|]. split.
  { intros Hi. unfold uint8. apply Z.mod_small. lia. }
  lia.
Qed.

Lemma personalization_tags_witness :
  hPers 1 = spec.H_tag 1
  /\ gPers 1 258 = spec.G_tag 1 258
  /\ spec.G_tag 1 258
     = [85; 65; 95; 70; 52; 74; 117; 109; 98; 108; 101; 95; 71; 1; 2; 1].
Proof.
  pose proof (personalization_tags 1 258 ltac:(lia)) as (Hh & Hg & _).
  split; [exact Hh | split; [exact Hg | reflexivity]].
Defined.

(** ** The combiner *)

(** C9, as the program has it: for byte sequences [x] and [y] with
    [len(x) <= len(y)], [xor(x, y)] returns a sequence of [len(x)] bytes
    whose [i]-th byte is [x[i] XOR y[i]]; a shorter first operand is not
    reported as a failure, and the result does not depend on the bytes of
    [y] from index [len(x)] on. *)
Theorem xor_first_operand_not_longer (x y : list byte) :
  (length x <= length y)%nat ->
  exists out,
    result (xor x y) = Ok out
    /\ length out = length x
    /\ (forall (i : nat) (xi yi : byte),
          x !! i = Some xi -> y !! i = Some yi ->
          out !! i = Some (Z.lxor xi yi))
    /\ out = zip_with Z.lxor x (take (length x) y).
Proof.
  intros Hxy. exists (zip_with Z.lxor x y). split; [|split; [|split]].
  - unfold xor, emit, lift, bind, result. cbn [snd].
    by rewrite xor_body_in_range.
  - rewrite length_zip_with. lia.
  - intros i xi yi Hx Hy. rewrite lookup_zip_with, Hx, Hy. done.
  - revert y Hxy. induction x as [|a x IH]; intros [|b y] Hxy;
      simpl in *; try done; try lia.
    f_equal. apply IH. lia.
Qed.

Lemma xor_first_operand_not_longer_witness :
  exists out,
    result (xor [1; 2] [3; 4; 5]) = Ok out
    /\ length out = 2%nat
    /\ (forall (i : nat) (xi yi : byte),
          [1; 2] !! i = Some xi -> [3; 4; 5] !! i = Some yi ->
          out !! i = Some (Z.lxor xi yi))
    /\ out = zip_with Z.lxor [1; 2] (take 2 [3; 4; 5]).
Proof.
  apply (xor_first_operand_not_longer [1; 2] [3; 4; 5]). simpl. lia.
Defined.

(** C9, as stated, fails: operands of different lengths are not always
    refused.  With a shorter first operand the call returns normally. *)
Lemma xor_mismatch_not_refused :
  length [1] <> length [2; 3]
  /\ result (xor [1] [2; 3]) = Ok [3]
  /\ ~ spec.failed (result (xor [1] [2; 3])).
Proof.
  split; [discriminate|]. split; [reflexivity|].
  vm_compute. tauto.
Qed.

(** With a longer first operand the guard [i <= len(y)] lets [y[len(y)]]
    be read, and the run panics. *)
Lemma xor_first_operand_longer (x y : list byte) :
  (length y < length x)%nat -> result (xor x y) = Panic.
Proof.
  intros Hxy. unfold xor, emit, lift, bind, result. cbn [snd].
  by rewrite xor_body_out_of_range.
Qed.

(** ** The length check *)

(** C5: [F4Jumble] and [F4JumbleInv] return the invalid-length error
    exactly when [len(M) < 48] or [len(M) > 4194368] (given a digest that
    does not fail); on such a length they return it with an empty trace,
    that is before any call to the digest or to [xor], whatever the digest
    would do; lengths 48 and 4194368 are accepted, 47 and 4194369
    rejected. *)
Theorem invalid_length_eager
    (Digest : Type)
    (NewDigest : list byte -> list byte -> list byte -> Z -> outcome Digest)
    (Write : Digest -> list byte -> Digest)
    (Sum : Digest -> list byte -> list byte)
    (M : list byte) :
  (len M < 48 \/ 4194368 < len M ->
   F4Jumble Digest NewDigest Write Sum M = ([], Err ErrInvalidLength)
   /\ F4JumbleInv Digest NewDigest Write Sum M = ([], Err ErrInvalidLength))
  /\ (len M = 47 \/ len M = 4194369 ->
      F4Jumble Digest NewDigest Write Sum M = ([], Err ErrInvalidLength)
      /\ F4JumbleInv Digest NewDigest Write Sum M
         = ([], Err ErrInvalidLength))
  /\ (spec.digest_total Digest NewDigest ->
      spec.digest_exact Digest NewDigest Write Sum ->
      (result (F4Jumble Digest NewDigest Write Sum M) = Err ErrInvalidLength
       <-> len M < 48 \/ 4194368 < len M)
      /\ (result (F4JumbleInv Digest NewDigest Write Sum M)
          = Err ErrInvalidLength
          <-> len M < 48 \/ 4194368 < len M)
      /\ (len M = 48 \/ len M = 4194368 ->
          (exists J, result (F4Jumble Digest NewDigest Write Sum M) = Ok J)
          /\ (exists U,
                result (F4JumbleInv Digest NewDigest Write Sum M) = Ok U))).
Proof.
  assert (Hbad : len M < 48 \/ 4194368 < len M ->
    F4Jumble Digest NewDigest Write Sum M = ([], Err ErrInvalidLength)
    /\ F4JumbleInv Digest NewDigest Write Sum M
       = ([], Err ErrInvalidLength)).
  { intros Hl. unfold F4Jumble, F4JumbleInv.
    by rewrite length_check_invalid by done. }
  split; [exact Hbad|]. split; [intros Hl; apply Hbad; lia|].
  intros Htotal Hexact.
  assert (Hgood : 48 <= len M <= 4194368 ->
    (exists J, result (F4Jumble Digest NewDigest Write Sum M) = Ok J)
    /\ (exists U, result (F4JumbleInv Digest NewDigest Write Sum M) = Ok U)).
  { intros Hv.
    destruct (F4Jumble_result _ _ _ _ Htotal Hexact M Hv) as [Hj _].
    destruct (F4JumbleInv_result _ _ _ _ Htotal Hexact M Hv) as [Hu _].
    eauto. }
  split; [|split].
  - split.
    + intros He. destruct (Z.lt_ge_cases (len M) 48); [by left|].
      destruct (Z.lt_ge_cases 4194368 (len M)); [by right|].
      destruct Hgood as [[J HJ] _]; [lia|]. congruence.
    + intros Hl. destruct (Hbad Hl) as [-> _]. done.
  - split.
    + intros He. destruct (Z.lt_ge_cases (len M) 48); [by left|].
      destruct (Z.lt_ge_cases 4194368 (len M)); [by right|].
      destruct Hgood as [_ [U HU]]; [lia|]. congruence.
    + intros Hl. destruct (Hbad Hl) as [_ ->]. done.
  - intros Hl. apply Hgood. lia.
Qed.

Lemma invalid_length_eager_witness :
  (F4Jumble blake2b.Digest blake2b.NewDigest blake2b.Write blake2b.Sum
            (take 47 vectors.src) = ([], Err ErrInvalidLength)
   /\ F4JumbleInv blake2b.Digest blake2b.NewDigest blake2b.Write
                  blake2b.Sum (take 47 vectors.src)
      = ([], Err ErrInvalidLength))
  /\ ((exists J, result (F4Jumble blake2b.Digest blake2b.NewDigest
                                  blake2b.Write blake2b.Sum vectors.src)
                 = Ok J)
      /\ (exists U, result (F4JumbleInv blake2b.Digest blake2b.NewDigest
                                        blake2b.Write blake2b.Sum
                                        vectors.src) = Ok U)).
Proof.
  split.
  - apply (invalid_length_eager blake2b.Digest blake2b.NewDigest
             blake2b.Write blake2b.Sum (take 47 vectors.src)).
    left. vm_compute. reflexivity.
  - apply (invalid_length_eager blake2b.Digest blake2b.NewDigest
             blake2b.Write blake2b.Sum vectors.src);
      [exact blake2b_total | exact blake2b_exact |].
    left. vm_compute. reflexivity.
Defined.

(** ** The expanding round function *)

Lemma digest_calls_G_calls (i j : Z) (n : nat) :
  digest_calls (spec.G_calls i j n)
  = map (fun q => (gPers i (j + Z.of_nat q), 64)) (seq 0 n).
Proof.
  unfold spec.G_calls, digest_calls.
  induction (seq 0 n) as [|q l IH]; [done|].
  cbn [map omap list_omap]. by rewrite <- IH.
Qed.

(** C7, as the program has it: for every round index [i], input [u] and
    output length [outLen] with [1 <= outLen <= MaxInt - 63] (that is
    [2^63 - 64], so that [outLen + 63] is an [int]), with a digest that
    does not fail and returns the requested number of bytes,
    [gRound(i, u, outLen)] returns the first [outLen] bytes of the
    concatenation of [n = ceil(outLen / 64)] blocks, block [j] (for
    [j = 0 .. n - 1], in increasing order) being the 64-byte digest of
    [u] under the tag [gPers(i, j)]; the digest is constructed once per
    block, in that order. *)
Theorem gRound_expansion
    (Digest : Type)
    (NewDigest : list byte -> list byte -> list byte -> Z -> outcome Digest)
    (Write : Digest -> list byte -> Digest)
    (Sum : Digest -> list byte -> list byte)
    (Htotal : spec.digest_total Digest NewDigest)
    (Hexact : spec.digest_exact Digest NewDigest Write Sum)
    (i : Z) (u : list byte) (outLen : Z) :
  1 <= outLen <= MaxInt - 63 ->
  exists (n : nat) (blocks : list (list byte)),
    64 * (Z.of_nat n - 1) < outLen <= 64 * Z.of_nat n
    /\ length blocks = n
    /\ (forall (j : nat) (blk : list byte),
          blocks !! j = Some blk ->
          length blk = 64%nat
          /\ exists d,
               NewDigest [] [] (gPers i (Z.of_nat j)) 64 = Ok d
               /\ blk = Sum (Write d u) [])
    /\ result (gRound Digest NewDigest Write Sum i u outLen)
       = Ok (take (Z.to_nat outLen) (concat blocks))
    /\ len (take (Z.to_nat outLen) (concat blocks)) = outLen
    /\ digest_calls (trace (gRound Digest NewDigest Write Sum i u outLen))
       = map (fun j : nat => (gPers i (Z.of_nat j), 64)) (seq 0 n).
Proof.
  intros Hn.
  set (n := spec.blocks_of outLen).
  set (blocks := map (fun j : nat =>
                        spec.digest Digest NewDigest Write Sum
                                    (gPers i (Z.of_nat j)) 64 u)
                     (seq 0 n)).
  exists n, blocks.
  pose proof (gRound_run _ _ _ _ Htotal Hexact i u outLen ltac:(lia))
    as Hrun.
  destruct Hn as [Hn _].
  pose proof (G_length _ _ _ _ Htotal Hexact i u outLen ltac:(lia))
    as Hlen.
  split; [apply blocks_of_bounds; lia|].
  split; [subst blocks; by rewrite length_map, length_seq|].
  split; [|split; [|split]].
  - intros j blk Hj. subst blocks.
    rewrite list_lookup_fmap in Hj.
    destruct (seq 0 n !! j) as [q|] eqn:Hq; [|done].
    apply lookup_seq in Hq as [-> _]. cbn in Hj. injection Hj as <-.
    split.
    + by rewrite (digest_length _ _ _ _ Htotal Hexact) by (done || lia).
    + destruct (Htotal (gPers i (Z.of_nat j)) 64) as [d Hd];
        [done | lia |].
      exists d. split; [done|]. unfold spec.digest. by rewrite Hd.
  - by rewrite Hrun.
  - change (concat blocks)
      with (spec.G_blocks Digest NewDigest Write Sum i u 0 n).
    unfold spec.G in Hlen. unfold len. fold n in Hlen. rewrite Hlen. lia.
  - rewrite Hrun. unfold trace. cbn [fst].
    by rewrite digest_calls_G_calls.
Qed.

Lemma gRound_expansion_witness :
  exists (n : nat) (blocks : list (list byte)),
    64 * (Z.of_nat n - 1) < 100 <= 64 * Z.of_nat n
    /\ length blocks = n
    /\ (forall (j : nat) (blk : list byte),
          blocks !! j = Some blk ->
          length blk = 64%nat
          /\ exists d,
               blake2b.NewDigest [] [] (gPers 1 (Z.of_nat j)) 64 = Ok d
               /\ blk = blake2b.Sum (blake2b.Write d [7; 8]) [])
    /\ result (gRound blake2b.Digest blake2b.NewDigest blake2b.Write
                      blake2b.Sum 1 [7; 8] 100)
       = Ok (take (Z.to_nat 100) (concat blocks))
    /\ len (take (Z.to_nat 100) (concat blocks)) = 100
    /\ digest_calls (trace (gRound blake2b.Digest blake2b.NewDigest
                                   blake2b.Write blake2b.Sum 1 [7; 8] 100))
       = map (fun j : nat => (gPers 1 (Z.of_nat j), 64)) (seq 0 n).
Proof.
  apply (gRound_expansion _ _ _ _ blake2b_total blake2b_exact 1 [7; 8] 100).
  vm_compute. split; discriminate.
Defined.

(** C7, as stated, fails: for an output length above [MaxInt - 63] the
    sum [lenR + lenH - 1] of [ceilDiv] wraps around to a negative [int],
    the loop does not run, no digest is constructed, and [result[:lenR]]
    panics on the empty result. *)
Lemma gRound_length_beyond_int :
  1 <= MaxInt
  /\ ceilDiv MaxInt lenH = -144115188075855871
  /\ gRound blake2b.Digest blake2b.NewDigest blake2b.Write blake2b.Sum
            0 [1; 2; 3] MaxInt
     = ([], Panic)
  /\ spec.failed
       (result (gRound blake2b.Digest blake2b.NewDigest blake2b.Write
                       blake2b.Sum 0 [1; 2; 3] MaxInt)).
Proof.
  split; [by vm_compute|]. split; [by vm_compute|].
  split; by vm_compute.
Qed.

(** ** The operands of [xor] in the two transforms *)



(** ** The known-answer test *)

(** [F4Jumble] is injective on messages of valid length, whatever the
    digest: two inputs cannot share an output. *)
Lemma F4Jumble_injective
    (Digest : Type)
    (NewDigest : list byte -> list byte -> list byte -> Z -> outcome Digest)
    (Write : Digest -> list byte -> Digest)
    (Sum : Digest -> list byte -> list byte)
    (Htotal : spec.digest_total Digest NewDigest)
    (Hexact : spec.digest_exact Digest NewDigest Write Sum)
    (M M' : list byte) :
  48 <= len M <= 4194368 -> 48 <= len M' <= 4194368 ->
  result (F4Jumble Digest NewDigest Write Sum M)
  = result (F4Jumble Digest NewDigest Write Sum M') ->
  M = M'.
Proof.
  intros Hv Hv' Heq.
  destruct (F4Jumble_result _ _ _ _ Htotal Hexact M Hv) as [Hj _].
  destruct (F4Jumble_result _ _ _ _ Htotal Hexact M' Hv') as [Hj' _].
  rewrite Hj, Hj' in Heq. injection Heq as Heq.
  rewrite <- (unjumble_jumble _ _ _ _ Htotal Hexact M Hv).
  rewrite <- (unjumble_jumble _ _ _ _ Htotal Hexact M' Hv').
  by rewrite Heq.
Qed.

(** The vector of the doc comments and the vector of the specification
    have the same output and inputs that differ in byte 25 ([0xfa] in the
    doc comments, [0xaa] in the specification). *)
Lemma vectors_differ :
  vectors.spec_jumbled = vectors.jumbled
  /\ vectors.spec_src = <[25%nat := 0xaa]> vectors.src
  /\ vectors.src !! 25%nat = Some 0xfa.
Proof. by vm_compute. Qed.

(** So, whatever the digest, the program cannot satisfy both. *)
Lemma doc_and_spec_vectors_exclusive
    (Digest : Type)
    (NewDigest : list byte -> list byte -> list byte -> Z -> outcome Digest)
    (Write : Digest -> list byte -> Digest)
    (Sum : Digest -> list byte -> list byte)
    (Htotal : spec.digest_total Digest NewDigest)
    (Hexact : spec.digest_exact Digest NewDigest Write Sum) :
  ~ (result (F4Jumble Digest NewDigest Write Sum vectors.src)
     = Ok vectors.jumbled
     /\ result (F4Jumble Digest NewDigest Write Sum vectors.spec_src)
        = Ok vectors.spec_jumbled).
Proof.
  intros [H1 H2].
  assert (Heq : vectors.src = vectors.spec_src).
  { apply (F4Jumble_injective _ _ _ _ Htotal Hexact
             vectors.src vectors.spec_src).
    - vm_compute. split; discriminate.
    - vm_compute. split; discriminate.
    - rewrite H1, H2. reflexivity. }
  vm_compute in Heq. discriminate.
Qed.

(** C3, as the program has it: on the 48-byte message
    5d7a8f73 9a2d9e94 5b0ce152 a8049e29 4c4d6e66 b164939d affa2ef6 ee692148
    1cdd86b3 cc4318d9 614fc820 905d042b, the input of the doc comments of
    [F4Jumble], the transform over BLAKE2b returns the 48 bytes
    0304d029 141b995d a5387c12 59706735 04d6c764 d91ea6c0 82123770 c7139ccd
    88ee2736 8cd0c092 1a0444c8 e5858d22, and [F4JumbleInv] of that output
    returns the input. *)
Theorem known_answer :
  vectors.src
  = vectors.unhex ("5d7a8f739a2d9e945b0ce152a8049e294c4d6e66b164939d"
                ++ "affa2ef6ee6921481cdd86b3cc4318d9614fc820905d042b")
  /\ vectors.jumbled
     = vectors.unhex ("0304d029141b995da5387c125970673504d6c764d91ea6c0"
                   ++ "82123770c7139ccd88ee27368cd0c0921a0444c8e5858d22")
  /\ result (F4Jumble blake2b.Digest blake2b.NewDigest blake2b.Write
                      blake2b.Sum vectors.src) = Ok vectors.jumbled
  /\ result (F4JumbleInv blake2b.Digest blake2b.NewDigest blake2b.Write
                         blake2b.Sum vectors.jumbled) = Ok vectors.src.
Proof.
  split; [vm_compute; reflexivity|].
  split; [vm_compute; reflexivity|].
  split; vm_compute; reflexivity.
Qed.

(** C3, as stated, fails: on the input the specification prints (byte 25
    is [0xaa]) the transform returns other bytes, and the inverse of the
    expected output is not that input. *)
Lemma spec_vector_rejected :
  result (F4Jumble blake2b.Digest blake2b.NewDigest blake2b.Write
                   blake2b.Sum vectors.spec_src)
  = Ok vectors.spec_src_jumbled
  /\ result (F4Jumble blake2b.Digest blake2b.NewDigest blake2b.Write
                      blake2b.Sum vectors.spec_src)
     <> Ok vectors.spec_jumbled
  /\ result (F4JumbleInv blake2b.Digest blake2b.NewDigest blake2b.Write
                         blake2b.Sum vectors.spec_jumbled)
     <> Ok vectors.spec_src.
Proof.
  split; [vm_compute; reflexivity|].
  split; vm_compute; discriminate.
Qed.

(** * Further properties of the program *)

(** ** Helpers *)

Lemma bind_stop {A B} (m : go A) (f : A -> go B) (t : list event)
    (e : error) :
  m = (t, Err e) -> bind m f = (t, Err e).
Proof. by intros ->. Qed.

Lemma xor_loop_no_error (x y : list byte) (idx : list nat) (r : list byte)
    (e : error) :
  xor_loop x y idx r <> Err e.
Proof.
  revert r. induction idx as [|i idx IH]; intros r; simpl; [done|].
  destruct (Z.of_nat i <=? len y); [|apply IH].
  destruct (x !! i); [|done]. destruct (y !! i); [|done].
  destruct (decide (i < length r)%nat); [apply IH | done].
Qed.

Lemma to_nat_ceilDiv_nonpos (n : Z) :
  n <= 0 -> Z.to_nat (ceilDiv n lenH) = 0%nat.
Proof.
  intros Hn. unfold ceilDiv, lenH.
  rewrite wrap_int_in_range by (unfold MaxInt; lia).
  assert ((n + 64 - 1) ÷ 64 <= 0); [|lia].
  destruct (Z.le_gt_cases 0 (n + 64 - 1)) as [Hp|Hp].
  - rewrite Z.quot_small; lia.
  - replace (n + 64 - 1) with (- (1 - n - 64)) by lia.
    rewrite Z.quot_opp_l by lia.
    pose proof (Z.quot_pos (1 - n - 64) 64 ltac:(lia) ltac:(lia)). lia.
Qed.

(** ** [ceilDiv] *)

(** X1: for [num >= 0] and [den >= 1] whose sum [num + den - 1] is an
    [int] (at most [MaxInt]), [ceilDiv(num, den)] is the ceiling of
    [num / den]: the one integer [q] with
    [den * (q - 1) < num <= den * q].  (Beyond that bound the sum wraps
    around and the result is negative.) *)
Theorem ceilDiv_ceiling (num den : Z) :
  0 <= num -> 1 <= den -> num + den - 1 <= MaxInt ->
  den * (ceilDiv num den - 1) < num <= den * ceilDiv num den
  /\ (forall q : Z, den * (q - 1) < num <= den * q -> q = ceilDiv num den).
Proof.
  intros Hnum Hden Hint. unfold ceilDiv.
  rewrite wrap_int_in_range by done.
  rewrite Z.quot_div_nonneg by lia.
  pose proof (Z.div_mod (num + den - 1) den ltac:(lia)) as Hd.
  pose proof (Z.mod_pos_bound (num + den - 1) den ltac:(lia)) as Hm.
  set (c := (num + den - 1) / den) in *.
  split; [nia|].
  intros q Hq. nia.
Qed.

Lemma ceilDiv_ceiling_witness :
  64 * (ceilDiv 4194304 64 - 1) < 4194304 <= 64 * ceilDiv 4194304 64
  /\ (forall q : Z,
        64 * (q - 1) < 4194304 <= 64 * q -> q = ceilDiv 4194304 64).
Proof.
  apply (ceilDiv_ceiling 4194304 64); [lia | lia |].
  vm_compute. discriminate.
Defined.

(** ** Edges of [xor] and [gRound] *)

(** X2: when the first operand of [xor] is longer than the second, the
    call panics: the guard [i <= len(y)] admits [i = len(y)], where
    [y[i]] is out of range.  No result is returned, zero-filled or
    otherwise. *)
Theorem xor_longer_first_operand_panics (x y : list byte) :
  (length y < length x)%nat -> xor x y = ([EvXor x y], Panic).
Proof.
  intros Hxy. unfold xor, emit, lift, bind.
  by rewrite xor_body_out_of_range.
Qed.

Lemma xor_longer_first_operand_panics_witness :
  xor [1; 2; 3] [4; 5] = ([EvXor [1; 2; 3] [4; 5]], Panic).
Proof.
  apply (xor_longer_first_operand_panics [1; 2; 3] [4; 5]). simpl. lia.
Defined.

(** X3: for equal lengths [xor] is its own inverse in the first operand:
    [xor(xor(x, y), y)] returns [x], and neither call fails. *)
Theorem xor_involution (x y : list byte) :
  length x = length y ->
  exists z,
    result (xor x y) = Ok z
    /\ length z = length x
    /\ result (xor z y) = Ok x.
Proof.
  intros Hxy. exists (spec.xor_bytes x y).
  pose proof (xor_bytes_length x y Hxy) as Hz.
  split; [by rewrite xor_run|]. split; [done|].
  rewrite xor_run by lia. cbn [result snd].
  by rewrite xor_bytes_cancel.
Qed.

Lemma xor_involution_witness :
  exists z,
    result (xor [0x5d; 0x7a] [0xff; 0x0f]) = Ok z
    /\ length z = 2%nat
    /\ result (xor z [0xff; 0x0f]) = Ok [0x5d; 0x7a].
Proof. apply (xor_involution [0x5d; 0x7a] [0xff; 0x0f]). reflexivity. Defined.

(** X4: [gRound] asked for no output returns the empty slice, and asked
    for a negative length panics on [result[:lenR]]; in both cases the
    loop does not run and no digest is constructed, whatever the digest
    implementation. *)
Theorem gRound_no_output
    (Digest : Type)
    (NewDigest : list byte -> list byte -> list byte -> Z -> outcome Digest)
    (Write : Digest -> list byte -> Digest)
    (Sum : Digest -> list byte -> list byte)
    (i : Z) (u : list byte) (lenR : Z) :
  (lenR = 0 -> gRound Digest NewDigest Write Sum i u lenR = ([], Ok []))
  /\ (lenR < 0 -> gRound Digest NewDigest Write Sum i u lenR = ([], Panic)).
Proof.
  split; intros Hl; unfold gRound;
    rewrite to_nat_ceilDiv_nonpos by lia; cbn [gRound_loop];
    unfold ret, bind, slice_to.
  - by subst lenR.
  - by rewrite (proj2 (Z.leb_gt 0 lenR)) by lia.
Qed.

Lemma gRound_no_output_witness :
  gRound blake2b.Digest blake2b.NewDigest blake2b.Write blake2b.Sum
         0 [1; 2] 0 = ([], Ok [])
  /\ gRound blake2b.Digest blake2b.NewDigest blake2b.Write blake2b.Sum
            0 [1; 2] (-64) = ([], Panic).
Proof.
  split.
  - apply (gRound_no_output blake2b.Digest blake2b.NewDigest blake2b.Write
             blake2b.Sum 0 [1; 2] 0). reflexivity.
  - apply (gRound_no_output blake2b.Digest blake2b.NewDigest blake2b.Write
             blake2b.Sum 0 [1; 2] (-64)). lia.
Defined.

(** ** Personalization tags: when two of them coincide *)

Lemma uint8_land_255 (j : Z) : uint8 (Z.land j 255) = j mod 256.
Proof.
  unfold uint8. change 255 with (Z.ones 8).
  rewrite Z.land_ones by lia. apply Z.mod_mod. lia.
Qed.

Lemma uint8_shiftr_8 (j : Z) : uint8 (Z.shiftr j 8) = (j / 256) mod 256.
Proof. unfold uint8. by rewrite (Z.shiftr_div_pow2 j 8) by lia. Qed.

Lemma mod_65536_split (j : Z) :
  j mod 65536 = j mod 256 + 256 * ((j / 256) mod 256).
Proof.
  pose proof (Z.div_mod j 256 ltac:(lia)) as H1.
  pose proof (Z.mod_pos_bound j 256 ltac:(lia)) as H2.
  pose proof (Z.div_mod (j / 256) 256 ltac:(lia)) as H3.
  pose proof (Z.mod_pos_bound (j / 256) 256 ltac:(lia)) as H4.
  symmetry. apply (Z.mod_unique j 65536 (j / 256 / 256)); lia.
Qed.

Lemma gPers_eq (i j i' j' : Z) :
  gPers i j = gPers i' j'
  <-> i mod 256 = i' mod 256 /\ j mod 65536 = j' mod 65536.
Proof.
  unfold gPers. rewrite !uint8_land_255, !uint8_shiftr_8, !mod_65536_split.
  unfold uint8.
  pose proof (Z.mod_pos_bound j 256 ltac:(lia)).
  pose proof (Z.mod_pos_bound j' 256 ltac:(lia)).
  pose proof (Z.mod_pos_bound (j / 256) 256 ltac:(lia)).
  pose proof (Z.mod_pos_bound (j' / 256) 256 ltac:(lia)).
  split.
  - intros [= Hi Hlo Hhi]. lia.
  - intros [Hi Hj].
    assert (j mod 256 = j' mod 256) as -> by lia.
    assert ((j / 256) mod 256 = (j' / 256) mod 256) as -> by lia.
    by rewrite Hi.
Qed.

(** X5: two G tags are the same exactly when the round indices agree
    modulo 256 and the block indices agree modulo 65536 (so block 65536
    would reuse the tag of block 0); two H tags are the same exactly when
    the round indices agree modulo 256; an H tag is never a G tag. *)
Theorem tags_coincide (i j i' j' : Z) :
  (gPers i j = gPers i' j'
   <-> i mod 256 = i' mod 256 /\ j mod 65536 = j' mod 65536)
  /\ (hPers i = hPers i' <-> i mod 256 = i' mod 256)
  /\ hPers i <> gPers i' j'.
Proof.
  split; [apply gPers_eq|]. split; [|discriminate].
  unfold hPers, uint8. split.
  - by intros [= Hi].
  - by intros ->.
Qed.

(** ** Errors of the digest *)

Section Errors.

Context (Digest : Type)
        (NewDigest : list byte -> list byte -> list byte -> Z
                     -> outcome Digest)
        (Write : Digest -> list byte -> Digest)
        (Sum : Digest -> list byte -> list byte).

(** The errors a run may end in: those the constructor returns. *)
Local Abbreviation from_digest m :=
  (forall e, result m = Err e ->
             exists pers n, NewDigest [] [] pers n = Err e).

Lemma bind_from_digest {A B} (m : go A) (f : A -> go B) :
  from_digest m -> (forall a, from_digest (f a)) -> from_digest (bind m f).
Proof.
  intros Hm Hf e. destruct m as [t [a| e' |]]; unfold bind.
  - specialize (Hf a e). destruct (f a) as [t' r]. exact Hf.
  - intros [= <-]. by apply Hm.
  - done.
Qed.

Lemma slice_to_from_digest {A} (s : list A) (n : Z) :
  from_digest (slice_to s n).
Proof. intros e. unfold slice_to. by destruct (_ && _). Qed.

Lemma slice_from_from_digest {A} (s : list A) (n : Z) :
  from_digest (slice_from s n).
Proof. intros e. unfold slice_from. by destruct (_ && _). Qed.

Lemma xor_from_digest (x y : list byte) : from_digest (xor x y).
Proof.
  intros e. unfold xor, emit, lift, bind, result, xor_body. cbn [snd].
  intros He. by apply xor_loop_no_error in He.
Qed.

Lemma newDigest_from_digest (pers : list byte) (n : Z) :
  from_digest (newDigest Digest NewDigest pers n).
Proof.
  intros e. unfold newDigest, emit, lift, bind, result. cbn [snd]. eauto.
Qed.

Lemma hRound_from_digest (i : Z) (u : list byte) (lenL : Z) :
  from_digest (hRound Digest NewDigest Write Sum i u lenL).
Proof.
  apply bind_from_digest; [apply newDigest_from_digest | done].
Qed.

Lemma gRound_loop_from_digest (i : Z) (u : list byte) (k : nat) (j : Z)
    (acc : list byte) :
  from_digest (gRound_loop Digest NewDigest Write Sum i u k j acc).
Proof.
  revert j acc. induction k as [|k IH]; intros j acc; [done|].
  cbn [gRound_loop]. apply bind_from_digest; [|intros a; apply IH].
  apply bind_from_digest; [apply newDigest_from_digest | done].
Qed.

Lemma gRound_from_digest (i : Z) (u : list byte) (lenR : Z) :
  from_digest (gRound Digest NewDigest Write Sum i u lenR).
Proof.
  apply bind_from_digest; [|intros a; apply slice_to_from_digest].
  apply gRound_loop_from_digest.
Qed.

End Errors.

Ltac from_digest_steps :=
  repeat first
    [ apply slice_to_from_digest
    | apply slice_from_from_digest
    | apply xor_from_digest
    | apply hRound_from_digest
    | apply gRound_from_digest
    | apply bind_from_digest; [|intros ?] ].

(** X6: the only errors [F4Jumble] and [F4JumbleInv] return are the
    invalid-length error and errors returned by the digest constructor,
    passed on unchanged; this holds for every digest implementation. *)
Theorem errors_come_from_length_or_digest
    (Digest : Type)
    (NewDigest : list byte -> list byte -> list byte -> Z -> outcome Digest)
    (Write : Digest -> list byte -> Digest)
    (Sum : Digest -> list byte -> list byte)
    (M : list byte) (e : error) :
  result (F4Jumble Digest NewDigest Write Sum M) = Err e
  \/ result (F4JumbleInv Digest NewDigest Write Sum M) = Err e ->
  e = ErrInvalidLength
  \/ exists pers n, NewDigest [] [] pers n = Err e.
Proof.
  unfold F4Jumble, F4JumbleInv.
  destruct ((len M <? minLenM) || (len M >? maxLenM)).
  - intros [[= <-]|[= <-]]; by left.
  - cbv zeta. intros [He|He]; right; revert e He.
    + unfold jumble_rounds. from_digest_steps. done.
    + unfold unjumble_rounds. from_digest_steps. done.
Qed.

Lemma errors_come_from_length_or_digest_witness :
  ErrDigest "blake2b: digest unavailable" = ErrInvalidLength
  \/ exists pers n,
       stubs.NewDigest [] [] pers n
       = Err (ErrDigest "blake2b: digest unavailable").
Proof.
  apply (errors_come_from_length_or_digest unit stubs.NewDigest stubs.Write
           stubs.Sum vectors.src).
  left. vm_compute. reflexivity.
Defined.

(** X7: on a message of valid length, if the first digest the transform
    constructs fails (block 0 of G in round 0 for [F4Jumble], H of round 1
    for [F4JumbleInv]), the transform returns that error at once: one
    constructor call, no [xor], no partial output. *)
Theorem first_digest_failure_stops
    (Digest : Type)
    (NewDigest : list byte -> list byte -> list byte -> Z -> outcome Digest)
    (Write : Digest -> list byte -> Digest)
    (Sum : Digest -> list byte -> list byte)
    (M : list byte) (e : error) :
  48 <= len M <= 4194368 ->
  (NewDigest [] [] (gPers 0 0) 64 = Err e ->
   F4Jumble Digest NewDigest Write Sum M
   = ([EvNewDigest (gPers 0 0) 64], Err e))
  /\ (NewDigest [] [] (hPers 1) (Z.min 64 (len M / 2)) = Err e ->
      F4JumbleInv Digest NewDigest Write Sum M
      = ([EvNewDigest (hPers 1) (Z.min 64 (len M / 2))], Err e)).
Proof.
  intros Hv.
  destruct (split_valid _ Hv) as (Hmin & HL & HLR & Hsum).
  unfold spec.lenR_of, spec.lenL_of in *.
  set (lenL := Z.min 64 (len M / 2)) in *.
  assert (Hlen : len M = Z.of_nat (length M)) by done.
  split; intros He.
  - assert (Hn : newDigest Digest NewDigest (gPers 0 0) lenH
                 = ([EvNewDigest (gPers 0 0) 64], Err e))
      by (unfold newDigest, emit, lift, bind, lenH; by rewrite He).
    assert (Hg : gRound Digest NewDigest Write Sum 0
                        (take (Z.to_nat lenL) M) (len M - lenL)
                 = ([EvNewDigest (gPers 0 0) 64], Err e)).
    { unfold gRound.
      rewrite ceilDiv_lenH
        by (split; [lia | apply valid_length_int; lia]).
      destruct (Z.to_nat ((len M - lenL + 63) / 64)) as [|k] eqn:Hk.
      { assert (1 <= (len M - lenL + 63) / 64)
          by (apply Z.div_le_lower_bound; lia). lia. }
      apply bind_stop. cbn [gRound_loop]. apply bind_stop.
      unfold inner. by apply bind_stop. }
    unfold F4Jumble. rewrite length_check_valid by done.
    cbv zeta. rewrite Hmin. unfold jumble_rounds.
    step (slice_to_run M lenL ltac:(lia)).
    step (slice_from_run M lenL ltac:(lia)).
    by rewrite (bind_stop _ _ _ _ Hg).
  - assert (Hn : newDigest Digest NewDigest (hPers 1) lenL
                 = ([EvNewDigest (hPers 1) lenL], Err e))
      by (unfold newDigest, emit, lift, bind; by rewrite He).
    assert (Hh : hRound Digest NewDigest Write Sum 1
                        (drop (Z.to_nat lenL) M) lenL
                 = ([EvNewDigest (hPers 1) lenL], Err e))
      by (unfold hRound; by apply bind_stop).
    unfold F4JumbleInv. rewrite length_check_valid by done.
    cbv zeta. rewrite Hmin. unfold unjumble_rounds.
    step (slice_to_run M lenL ltac:(lia)).
    step (slice_from_run M lenL ltac:(lia)).
    by rewrite (bind_stop _ _ _ _ Hh).
Qed.

Lemma first_digest_failure_stops_witness :
  F4Jumble unit stubs.NewDigest stubs.Write stubs.Sum vectors.src
  = ([EvNewDigest (gPers 0 0) 64],
     Err (ErrDigest "blake2b: digest unavailable"))
  /\ F4JumbleInv unit stubs.NewDigest stubs.Write stubs.Sum vectors.src
     = ([EvNewDigest (hPers 1) 24],
        Err (ErrDigest "blake2b: digest unavailable")).
Proof.
  pose proof (first_digest_failure_stops unit stubs.NewDigest stubs.Write
                stubs.Sum vectors.src
                (ErrDigest "blake2b: digest unavailable")) as H.
  destruct H as [Hj Hu]; [vm_compute; split; discriminate|].
  split; [apply Hj | apply Hu]; reflexivity.
Defined.

(** ** The digests a run constructs *)

Lemma G_tags_NoDup (i : Z) (n : nat) :
  Z.of_nat n <= 65536 ->
  NoDup ((fun q : nat => gPers i (Z.of_nat q)) <$> seq 0 n).
Proof.
  intros Hn. apply NoDup_fmap_2_strong; [|apply NoDup_seq].
  intros q q' Hq Hq' H%gPers_eq. destruct H as [_ H].
  apply elem_of_seq in Hq, Hq'.
  rewrite !Z.mod_small in H by lia. lia.
Qed.

Lemma tags_NoDup (n : nat) :
  Z.of_nat n <= 65536 ->
  let A i := (fun q : nat => gPers i (Z.of_nat q)) <$> seq 0 n in
  NoDup (A 0 ++ [hPers 0] ++ A 1 ++ [hPers 1])
  /\ NoDup ([hPers 1] ++ A 1 ++ [hPers 0] ++ A 0).
Proof.
  intros Hn. cbv zeta.
  set (A0 := (fun q : nat => gPers 0 (Z.of_nat q)) <$> seq 0 n).
  set (A1 := (fun q : nat => gPers 1 (Z.of_nat q)) <$> seq 0 n).
  assert (Hfwd : NoDup (A0 ++ [hPers 0] ++ A1 ++ [hPers 1])).
  { apply NoDup_app. split; [by apply G_tags_NoDup|]. split.
    - intros x (q & -> & _)%list_elem_of_fmap Hin.
      subst A1.
      rewrite !elem_of_app, !list_elem_of_singleton, list_elem_of_fmap in Hin.
      destruct Hin as [Hin|[(q' & Hin & _)|Hin]]; discriminate Hin.
    - apply NoDup_app. split; [apply NoDup_singleton|]. split.
      + intros x ->%list_elem_of_singleton. subst A1.
        rewrite elem_of_app, list_elem_of_fmap, list_elem_of_singleton.
        intros [(q' & Hin & _)|Hin]; discriminate Hin.
      + apply NoDup_app. split; [by apply G_tags_NoDup|]. split.
        * intros x (q & -> & _)%list_elem_of_fmap Hin.
          apply list_elem_of_singleton in Hin. discriminate Hin.
        * apply NoDup_singleton. }
  split; [exact Hfwd|].
  revert Hfwd. apply NoDup_Permutation_proper. solve_Permutation.
Qed.

Section Calls.

Context (Digest : Type)
        (NewDigest : list byte -> list byte -> list byte -> Z
                     -> outcome Digest)
        (Write : Digest -> list byte -> Digest)
        (Sum : Digest -> list byte -> list byte).

Hypothesis Htotal : spec.digest_total Digest NewDigest.
Hypothesis Hexact : spec.digest_exact Digest NewDigest Write Sum.

Lemma transforms_digest_calls (M : list byte) :
  minLenM <= len M <= maxLenM ->
  let lenL := spec.lenL_of (len M) in
  let n := spec.blocks_of (spec.lenR_of (len M)) in
  let calls i := (fun q : nat => (gPers i (Z.of_nat q), 64)) <$> seq 0 n in
  Z.of_nat n <= 65536
  /\ digest_calls (trace (F4Jumble Digest NewDigest Write Sum M))
     = calls 0 ++ [(hPers 0, lenL)] ++ calls 1 ++ [(hPers 1, lenL)]
  /\ digest_calls (trace (F4JumbleInv Digest NewDigest Write Sum M))
     = [(hPers 1, lenL)] ++ calls 1 ++ [(hPers 0, lenL)] ++ calls 0.
Proof.
  intros Hv lenL n calls.
  destruct (split_valid _ Hv) as (_ & HL & HLR & Hsum).
  pose proof (F4Jumble_run _ _ _ _ Htotal Hexact M Hv) as Hj.
  pose proof (F4JumbleInv_run _ _ _ _ Htotal Hexact M Hv) as Hu.
  cbv zeta in Hj, Hu.
  destruct Hj as (_ & _ & ->). destruct Hu as (_ & _ & ->).
  unfold trace. cbn [fst]. fold lenL n.
  split; [|split].
  - pose proof (blocks_of_bounds (spec.lenR_of (len M)) ltac:(lia)) as Hb.
    fold n in Hb.
    assert (spec.lenR_of (len M) <= 4194304); [|lia].
    unfold spec.lenR_of, spec.lenL_of, minLenM, maxLenM in *.
    pose proof (Z.div_mod (len M) 2 ltac:(lia)).
    pose proof (Z.mod_pos_bound (len M) 2 ltac:(lia)). lia.
  - unfold digest_calls. rewrite !omap_app. fold digest_calls.
    rewrite !digest_calls_G_calls. reflexivity.
  - unfold digest_calls. rewrite !omap_app. fold digest_calls.
    rewrite !digest_calls_G_calls. cbn [app omap list_omap].
    by rewrite app_nil_r.
Qed.

(** X8: on a message of valid length, with a digest that does not fail
    and returns the requested number of bytes, [F4Jumble] constructs
    [2 n + 2] digests, [n = ceil(lenR / 64)]: the [n] blocks of G in round
    0 (64 bytes each, block index increasing), H of round 0 ([lenL]
    bytes), the [n] blocks of G in round 1, H of round 1.  [F4JumbleInv]
    constructs the same digests with the rounds in the order H1, G1, H0,
    G0. *)
Theorem digest_call_sequence (M : list byte) :
  48 <= len M <= 4194368 ->
  let lenL := Z.min 64 (len M / 2) in
  let lenR := len M - lenL in
  exists n : nat,
    64 * (Z.of_nat n - 1) < lenR <= 64 * Z.of_nat n
    /\ let calls i :=
         map (fun j : nat => (gPers i (Z.of_nat j), 64)) (seq 0 n) in
       digest_calls (trace (F4Jumble Digest NewDigest Write Sum M))
       = calls 0 ++ [(hPers 0, lenL)] ++ calls 1 ++ [(hPers 1, lenL)]
       /\ digest_calls (trace (F4JumbleInv Digest NewDigest Write Sum M))
          = [(hPers 1, lenL)] ++ calls 1 ++ [(hPers 0, lenL)] ++ calls 0
       /\ length (digest_calls
                    (trace (F4Jumble Digest NewDigest Write Sum M)))
          = (2 * n + 2)%nat.
Proof.
  intros Hv lenL lenR.
  destruct (split_valid _ Hv) as (_ & HL & HLR & Hsum).
  destruct (transforms_digest_calls M Hv) as (_ & Hj & Hu).
  cbv zeta in Hj, Hu.
  exists (spec.blocks_of (spec.lenR_of (len M))).
  split; [apply blocks_of_bounds; lia|].
  intros calls. split; [exact Hj|]. split; [exact Hu|].
  rewrite Hj. rewrite !length_app, !length_fmap, !length_seq. simpl. lia.
Qed.

(** X9: on a message of valid length, with such a digest, the
    personalization tags of the digests one run constructs are pairwise
    distinct, for [F4Jumble] and for [F4JumbleInv]: no tag is used twice
    within a transform. *)
Theorem tags_used_once (M : list byte) :
  48 <= len M <= 4194368 ->
  NoDup (map fst (digest_calls
                    (trace (F4Jumble Digest NewDigest Write Sum M))))
  /\ NoDup (map fst (digest_calls
                       (trace (F4JumbleInv Digest NewDigest Write Sum M)))).
Proof.
  intros Hv.
  destruct (transforms_digest_calls M Hv) as (Hn & -> & ->).
  destruct (tags_NoDup _ Hn) as [Hfwd Hbwd]. cbv zeta in Hfwd, Hbwd.
  change (@map) with (@fmap list _).
  rewrite !fmap_app, <- !list_fmap_compose. split; [exact Hfwd|exact Hbwd].
Qed.

End Calls.

Lemma digest_call_sequence_witness :
  exists n : nat,
    64 * (Z.of_nat n - 1) < 24 <= 64 * Z.of_nat n
    /\ let calls i :=
         map (fun j : nat => (gPers i (Z.of_nat j), 64)) (seq 0 n) in
       digest_calls (trace (F4Jumble blake2b.Digest blake2b.NewDigest
                                     blake2b.Write blake2b.Sum vectors.src))
       = calls 0 ++ [(hPers 0, 24)] ++ calls 1 ++ [(hPers 1, 24)]
       /\ digest_calls (trace (F4JumbleInv blake2b.Digest blake2b.NewDigest
                                           blake2b.Write blake2b.Sum
                                           vectors.src))
          = [(hPers 1, 24)] ++ calls 1 ++ [(hPers 0, 24)] ++ calls 0
       /\ length (digest_calls
                    (trace (F4Jumble blake2b.Digest blake2b.NewDigest
                                     blake2b.Write blake2b.Sum vectors.src)))
          = (2 * n + 2)%nat.
Proof.
  apply (digest_call_sequence _ _ _ _ blake2b_total blake2b_exact
                              vectors.src).
  vm_compute. split; discriminate.
Defined.

Lemma tags_used_once_witness :
  NoDup (map fst (digest_calls
                    (trace (F4Jumble blake2b.Digest blake2b.NewDigest
                                     blake2b.Write blake2b.Sum vectors.src))))
  /\ NoDup (map fst (digest_calls
                       (trace (F4JumbleInv blake2b.Digest blake2b.NewDigest
                                           blake2b.Write blake2b.Sum
                                           vectors.src)))).
Proof.
  apply (tags_used_once _ _ _ _ blake2b_total blake2b_exact vectors.src).
  vm_compute. split; discriminate.
Defined.

(** ** Outputs of [gRound] for different lengths; injectivity *)

Section Composition.

Context (Digest : Type)
        (NewDigest : list byte -> list byte -> list byte -> Z
                     -> outcome Digest)
        (Write : Digest -> list byte -> Digest)
        (Sum : Digest -> list byte -> list byte).

Hypothesis Htotal : spec.digest_total Digest NewDigest.
Hypothesis Hexact : spec.digest_exact Digest NewDigest Write Sum.

Local Abbreviation G_blocks := (spec.G_blocks Digest NewDigest Write Sum).

Lemma G_blocks_app (i : Z) (u : list byte) (j : Z) (k k' : nat) :
  G_blocks i u j (k + k')
  = G_blocks i u j k ++ G_blocks i u (j + Z.of_nat k) k'.
Proof.
  revert j. induction k as [|k IH]; intros j.
  - cbn [Nat.add]. by rewrite Z.add_0_r.
  - cbn [Nat.add]. rewrite !G_blocks_S, IH, <- app_assoc.
    by replace (j + 1 + Z.of_nat k) with (j + Z.of_nat (S k)) by lia.
Qed.

Lemma blocks_of_mono (n m : Z) :
  0 <= n <= m -> (spec.blocks_of n <= spec.blocks_of m)%nat.
Proof.
  intros Hnm. unfold spec.blocks_of.
  apply Z2Nat.inj_le; [apply Z.div_pos; lia | apply Z.div_pos; lia |].
  apply Z.div_le_mono; lia.
Qed.

(** X10: with a digest that does not fail and returns the requested
    number of bytes, the output of [gRound] for a length [n] is the
    prefix of its output for any longer length [m] up to [MaxInt - 63]
    (so that [m + 63] is an [int]), for the same round index and input:
    asking for more bytes only appends. *)
Theorem gRound_prefix (i : Z) (u : list byte) (n m : Z) :
  0 <= n <= m -> m <= MaxInt - 63 ->
  exists gn gm,
    result (gRound Digest NewDigest Write Sum i u n) = Ok gn
    /\ result (gRound Digest NewDigest Write Sum i u m) = Ok gm
    /\ gn = take (Z.to_nat n) gm.
Proof.
  intros Hnm Hint.
  rewrite (gRound_run _ _ _ _ Htotal Hexact i u n) by lia.
  rewrite (gRound_run _ _ _ _ Htotal Hexact i u m) by lia.
  do 2 eexists. split; [reflexivity|]. split; [reflexivity|].
  unfold spec.G. rewrite take_take, Nat.min_l by lia.
  pose proof (blocks_of_mono n m Hnm) as Hk.
  pose proof (blocks_of_bounds n ltac:(lia)) as Hb.
  replace (spec.blocks_of m)
    with (spec.blocks_of n + (spec.blocks_of m - spec.blocks_of n))%nat
    by lia.
  rewrite G_blocks_app, take_app_le; [done|].
  rewrite (G_blocks_length _ _ _ _ Htotal Hexact). lia.
Qed.

(** X11: with such a digest, [F4Jumble] and [F4JumbleInv] are injective
    on messages of valid length: two messages with the same output are
    the same message. *)
Theorem transforms_injective (M M' : list byte) :
  48 <= len M <= 4194368 -> 48 <= len M' <= 4194368 ->
  (result (F4Jumble Digest NewDigest Write Sum M)
   = result (F4Jumble Digest NewDigest Write Sum M') -> M = M')
  /\ (result (F4JumbleInv Digest NewDigest Write Sum M)
      = result (F4JumbleInv Digest NewDigest Write Sum M') -> M = M').
Proof.
  intros Hv Hv'.
  destruct (F4Jumble_result _ _ _ _ Htotal Hexact M Hv) as [Hj _].
  destruct (F4Jumble_result _ _ _ _ Htotal Hexact M' Hv') as [Hj' _].
  destruct (F4JumbleInv_result _ _ _ _ Htotal Hexact M Hv) as [Hu _].
  destruct (F4JumbleInv_result _ _ _ _ Htotal Hexact M' Hv') as [Hu' _].
  split; intros Heq.
  - rewrite Hj, Hj' in Heq. injection Heq as Heq.
    rewrite <- (unjumble_jumble _ _ _ _ Htotal Hexact M Hv).
    rewrite <- (unjumble_jumble _ _ _ _ Htotal Hexact M' Hv').
    by rewrite Heq.
  - rewrite Hu, Hu' in Heq. injection Heq as Heq.
    rewrite <- (jumble_unjumble _ _ _ _ Htotal Hexact M Hv).
    rewrite <- (jumble_unjumble _ _ _ _ Htotal Hexact M' Hv').
    by rewrite Heq.
Qed.

End Composition.

Lemma gRound_prefix_witness :
  exists gn gm,
    result (gRound blake2b.Digest blake2b.NewDigest blake2b.Write
                   blake2b.Sum 0 [1; 2; 3] 24) = Ok gn
    /\ result (gRound blake2b.Digest blake2b.NewDigest blake2b.Write
                      blake2b.Sum 0 [1; 2; 3] 100) = Ok gm
    /\ gn = take (Z.to_nat 24) gm.
Proof.
  apply (gRound_prefix _ _ _ _ blake2b_total blake2b_exact 0 [1; 2; 3]
                       24 100).
  - lia.
  - vm_compute. discriminate.
Defined.

Lemma transforms_injective_witness :
  result (F4Jumble blake2b.Digest blake2b.NewDigest blake2b.Write
                   blake2b.Sum vectors.src)
  <> result (F4Jumble blake2b.Digest blake2b.NewDigest blake2b.Write
                      blake2b.Sum vectors.spec_src).
Proof.
  intros Heq.
  apply (transforms_injective _ _ _ _ blake2b_total blake2b_exact
                              vectors.src vectors.spec_src) in Heq.
  - vm_compute in Heq. discriminate Heq.
  - vm_compute. split; discriminate.
  - vm_compute. split; discriminate.
Defined.

Lemma int_arithmetic_in_range_witness :
  let lenM := 4194368 in
  let lenL := min lenH (lenM ÷ 2) in
  let lenR := lenM - lenL in
  0 <= lenM ÷ 2 < 2 ^ 31
  /\ 0 <= lenL < 2 ^ 31
  /\ 0 <= lenR < 2 ^ 31
  /\ 0 <= lenR + lenH - 1 < 2 ^ 31
  /\ 0 <= ceilDiv lenR lenH <= 65536.
Proof.
  apply (int_arithmetic_in_range 4194368). vm_compute. split; discriminate.
Defined.
